(** * GHepRecord: the generated event record and its daughter-list compactifier

    A shallow embedding of [src/src/GHEP/GHepRecord.cxx].  The record is a
    ROOT [TClonesArray] of [GHepParticle] entries, an owning pointer to an
    [Interaction] summary and three boolean flags.  Mother/daughter links
    are positions in the array.

    Conventions of the embedding:
    - a C++ [int] is a [Z]: the code only adds or subtracts 1, or a count
      of daughters, to positions and daughter indices; signed overflow,
      which C++ leaves undefined, is not modelled;
    - a C++ [double] is a primitive IEEE binary64 [float];
    - the array is a [list GHepParticle] (entries are only ever added at
      slot [GetEntries()], so the array has no holes and [TIter] visits the
      slots in order);
    - a [GHepParticle *] obtained from the array is the slot it points to; a
      null pointer is [None];
    - dereferencing a null pointer and a failed [assert] end the execution:
      they are the [Aborts] outcome;
    - [Interaction] objects live in a heap indexed by addresses;
    - the [LOG(...)] lines write to the process-wide Messenger only and are
      left out. *)

From Stdlib Require Import ZArith Lia PrimFloat.
From stdpp Require Import base option list sorting gmap strings.

Local Open Scope Z_scope.

(** ** Outcomes of a member function *)

Inductive outcome (A : Type) : Type :=
| Returns (a : A)
| Aborts.
Arguments Returns {A} a.
Arguments Aborts {A}.

#[global] Instance outcome_bind : MBind outcome := λ A B k m,
  match m with
  | Returns a => k a
  | Aborts => Aborts
  end.

(** Dereferencing a pointer. *)
Definition deref {A} (p : option A) : outcome A :=
  match p with
  | Some a => Returns a
  | None => Aborts
  end.

(** ** Particle entries *)

(** Modelled from the spec: [GHEP/GHepStatus.h] is not part of the sources.
    The role tag is an enumeration that distinguishes the initial state, the
    target nucleon, intermediate and decayed entries, the stable final state
    and generator-internal bookkeeping roles. *)
Inductive GHepStatus_t : Type :=
| kIStInitialState
| kIstNucleonTarget
| kIStIntermediateState
| kIStDecayedState
| kIStStableFinalState
| kIStBookkeeping (tag : Z).

#[global] Instance GHepStatus_eq_dec : EqDecision GHepStatus_t.
Proof. solve_decision. Defined.

Record TLorentzVector : Type := mkTLorentzVector {
  fX : float; fY : float; fZ : float; fT : float
}.

(** Modelled from the spec: [GHEP/GHepParticle.h] is not part of the sources.
    An entry carries a type code, a role tag, the mother and daughter index
    fields, a 4-momentum and a 4-position. *)
Record GHepParticle : Type := mkGHepParticle {
  PdgCode : Z;
  Status : GHepStatus_t;
  FirstMother : Z;
  LastMother : Z;
  FirstDaughter : Z;
  LastDaughter : Z;
  P4 : TLorentzVector;
  X4 : TLorentzVector
}.

(** Modelled from the spec: the setters of [GHepParticle] are not part of
    the sources; each overwrites the field it names. *)
Definition SetFirstMother (m : Z) (p : GHepParticle) : GHepParticle :=
  mkGHepParticle (PdgCode p) (Status p) m (LastMother p)
                 (FirstDaughter p) (LastDaughter p) (P4 p) (X4 p).

Definition SetFirstDaughter (d : Z) (p : GHepParticle) : GHepParticle :=
  mkGHepParticle (PdgCode p) (Status p) (FirstMother p) (LastMother p)
                 d (LastDaughter p) (P4 p) (X4 p).

Definition SetLastDaughter (d : Z) (p : GHepParticle) : GHepParticle :=
  mkGHepParticle (PdgCode p) (Status p) (FirstMother p) (LastMother p)
                 (FirstDaughter p) d (P4 p) (X4 p).

(** Modelled from the spec: [GHepParticle::HasDaughters] is not part of the
    sources; an entry without daughters has the range (-1,-1). *)
Definition HasDaughters (p : GHepParticle) : bool :=
  negb (FirstDaughter p =? -1).

(** ** The event record *)

Abbreviation addr := positive (only parsing).

Record GHepRecord : Type := mkGHepRecord {
  particles : list GHepParticle;
  fInteraction : option addr;
  fIsPauliBlocked : bool;
  fIsBelowThrNRF : bool;
  fGenericErrFlag : bool
}.

Definition with_particles (r : GHepRecord) (ps : list GHepParticle) : GHepRecord :=
  mkGHepRecord ps (fInteraction r) (fIsPauliBlocked r) (fIsBelowThrNRF r)
               (fGenericErrFlag r).

Definition GetEntries (r : GHepRecord) : Z := Z.of_nat (length (particles r)).

(** The array's indexing operator read through a const reference: null when
    the index is out of bounds. *)
Definition at_slot (ps : list GHepParticle) (i : Z) : option GHepParticle :=
  if (0 <=? i) && (i <? Z.of_nat (length ps)) then ps !! Z.to_nat i else None.

(** [GHepRecord::GetInteraction]: the null test only selects a log line. *)
Definition GetInteraction (r : GHepRecord) : option addr := fInteraction r.

(** [GHepRecord::AttachInteraction] *)
Definition AttachInteraction (r : GHepRecord) (interaction : option addr) : GHepRecord :=
  mkGHepRecord (particles r) interaction (fIsPauliBlocked r) (fIsBelowThrNRF r)
               (fGenericErrFlag r).

(** [GHepRecord::GetParticle] *)
Definition GetParticle (r : GHepRecord) (position : Z) : option GHepParticle :=
  if (0 <=? position) && (position <? GetEntries r)
  then at_slot (particles r) position
  else None.

(** Writing through a non-null pointer to the slot at [position]. *)
Definition set_slot (f : GHepParticle → GHepParticle) (position : Z)
    (r : GHepRecord) : GHepRecord :=
  with_particles r (alter f (Z.to_nat position) (particles r)).

(** [this->GetParticle(position)->Set...(..)]: the pointer is dereferenced
    without a null test. *)
Definition update_slot (f : GHepParticle → GHepParticle) (position : Z)
    (r : GHepRecord) : outcome GHepRecord :=
  _ ← deref (GetParticle r position);
  Returns (set_slot f position r).

(** A [for] loop over the values [xs] of its counter, threading the state. *)
Fixpoint oloop {S X} (body : S → X → outcome S) (xs : list X) (s : S) : outcome S :=
  match xs with
  | [] => Returns s
  | x :: xs' => s' ← body s x; oloop body xs' s'
  end.

(** ** Linear lookups *)

(** The loop [for(int i = start; i < GetEntries(); i++)] of the three lookup
    functions: the slot is read with the indexing operator and dereferenced;
    the first slot that passes [test] is returned. *)
Fixpoint first_match (ps : list GHepParticle) (test : GHepParticle → bool)
    (idxs : list Z) : outcome (option (Z * GHepParticle)) :=
  match idxs with
  | [] => Returns None
  | i :: idxs' =>
      p ← deref (at_slot ps i);
      if test p then Returns (Some (i, p)) else first_match ps test idxs'
  end.

Definition positions_from (r : GHepRecord) (start : Z) : list Z :=
  seqZ start (GetEntries r - start).

(** [GHepRecord::FindParticle]: a null result is [None]. *)
Definition FindParticle (r : GHepRecord) (pdg : Z) (status : GHepStatus_t)
    (start : Z) : outcome (option GHepParticle) :=
  m ← first_match (particles r)
            (λ p, bool_decide (Status p = status) && (PdgCode p =? pdg))
            (positions_from r start);
  Returns (match m with Some (_, p) => Some p | None => None end).

(** [GHepRecord::ParticlePosition(int pdg, int status, int start)] *)
Definition ParticlePosition (r : GHepRecord) (pdg : Z) (status : GHepStatus_t)
    (start : Z) : outcome Z :=
  m ← first_match (particles r)
            (λ p, bool_decide (Status p = status) && (PdgCode p =? pdg))
            (positions_from r start);
  Returns (match m with Some (i, _) => i | None => -1 end).

Section ParticlePositionByCompare.
(** [GHepParticle::Compare] is not part of the sources. *)
Variable Compare : GHepParticle → GHepParticle → bool.

(** [GHepRecord::ParticlePosition(GHepParticle * particle, int start)] *)
Definition ParticlePosition_ptr (r : GHepRecord) (particle : GHepParticle)
    (start : Z) : outcome Z :=
  m ← first_match (particles r) (λ p, Compare p particle)
            (positions_from r start);
  Returns (match m with Some (i, _) => i | None => -1 end).
End ParticlePositionByCompare.

(** ** Flags *)

Definition SwitchIsPauliBlocked (on_off : bool) (r : GHepRecord) : GHepRecord :=
  mkGHepRecord (particles r) (fInteraction r) on_off (fIsBelowThrNRF r)
               (fGenericErrFlag r).

Definition SwitchIsBelowThrNRF (on_off : bool) (r : GHepRecord) : GHepRecord :=
  mkGHepRecord (particles r) (fInteraction r) (fIsPauliBlocked r) on_off
               (fGenericErrFlag r).

Definition SwitchGenericErrFlag (on_off : bool) (r : GHepRecord) : GHepRecord :=
  mkGHepRecord (particles r) (fInteraction r) (fIsPauliBlocked r)
               (fIsBelowThrNRF r) on_off.

Definition IsUnphysical (r : GHepRecord) : bool :=
  fIsPauliBlocked r || fIsBelowThrNRF r || fGenericErrFlag r.

(** ** Shifting the vertex *)

(** Modelled from the spec: [GHepParticle::SetVertex] is not part of the
    sources; it overwrites the 4-position. *)
Definition SetVertex (x y z t : float) (p : GHepParticle) : GHepParticle :=
  mkGHepParticle (PdgCode p) (Status p) (FirstMother p) (LastMother p)
                 (FirstDaughter p) (LastDaughter p) (P4 p) (mkTLorentzVector x y z t).

(** [GHepRecord::ShiftVertex] *)
Definition ShiftVertex (vec4 : TLorentzVector) (r : GHepRecord) : GHepRecord :=
  let x0 := fX vec4 in
  let y0 := fY vec4 in
  let z0 := fZ vec4 in
  let t0 := fT vec4 in
  with_particles r
    ((λ p, SetVertex (x0 + fX (X4 p)) (y0 + fY (X4 p))
                     (z0 + fZ (X4 p)) (t0 + fT (X4 p)) p)%float <$> particles r).

(** ** The daughter-list compactifier *)

(** The [TIter] loop of [HasCompactDaughterList]: the positions [i] of the
    entries whose first mother is [pos], in the order they are pushed. *)
Fixpoint collect_daughters (pos : Z) (ps : list GHepParticle) (i : Z) : list Z :=
  match ps with
  | [] => []
  | p :: ps' =>
      if FirstMother p =? pos
      then i :: collect_daughters pos ps' (i + 1)
      else collect_daughters pos ps' (i + 1)
  end.

(** The loop over the sorted daughters, starting with [prev = *begin]. *)
Fixpoint check_adjacent (daughters : list Z) (prev : Z) (is_compact : bool) : bool :=
  match daughters with
  | [] => is_compact
  | curr :: rest =>
      check_adjacent rest curr (is_compact && (Z.abs (prev - curr) <=? 1))
  end.

(** [GHepRecord::HasCompactDaughterList]; [std::sort] is stdpp's merge sort
    (every sorting routine returns the same list of integers). *)
Definition HasCompactDaughterList (r : GHepRecord) (pos : Z) : bool :=
  let daughters := collect_daughters pos (particles r) 0 in
  if (1 <? length daughters)%nat
  then let sorted := merge_sort Z.le daughters in
       check_adjacent sorted (default 0 (head sorted)) true
  else true.

(** [GHepRecord::FirstNonInitStateEntry] *)
Fixpoint first_non_init (ps : list GHepParticle) (pos : Z) : Z :=
  match ps with
  | [] => pos
  | p :: ps' =>
      let ist := Status p in
      if bool_decide (ist ≠ kIStInitialState) && bool_decide (ist ≠ kIstNucleonTarget)
      then pos
      else first_non_init ps' (pos + 1)
  end.

Definition FirstNonInitStateEntry (r : GHepRecord) : Z :=
  first_non_init (particles r) 0.

(** Modelled from the spec: [GHepParticle::Copy] is not part of the sources;
    it overwrites every field of the receiver with those of [particle]. *)
Definition GHepParticle_Copy (particle : GHepParticle) (this : GHepParticle) : GHepParticle :=
  particle.

(** The loop [for(k = FirstDaughter; k <= LastDaughter; k++)
    GetParticle(k)->SetFirstMother(m)] of [SwapParticles]. *)
Definition tell_daughters (p : GHepParticle) (m : Z) (r : GHepRecord) : outcome GHepRecord :=
  if HasDaughters p
  then oloop (λ r' k, update_slot (SetFirstMother m) k r')
             (seqZ (FirstDaughter p) (LastDaughter p - FirstDaughter p + 1)) r
  else Returns r.

(** [GHepRecord::SwapParticles] *)
Definition SwapParticles (r : GHepRecord) (i j : Z) : outcome GHepRecord :=
  let n := GetEntries r in
  if negb ((0 <=? i) && (0 <=? j) && (i <? n) && (j <? n)) then Aborts
  else if i =? j then Returns r
  else
    pi ← deref (GetParticle r i);
    pj ← deref (GetParticle r j);
    let tmp := pi in
    let r := set_slot (GHepParticle_Copy pj) i r in
    let r := set_slot (GHepParticle_Copy tmp) j r in
    pi ← deref (GetParticle r i);
    r ← tell_daughters pi j r;
    pj ← deref (GetParticle r j);
    tell_daughters pj i r.

(** The inner [TIter] loop of [FinalizeDaughterLists] for the entry at [i1]. *)
Fixpoint scan_mothers (i1 : Z) (ps : list GHepParticle) (i2 : Z) (dau : Z * Z) : Z * Z :=
  match ps with
  | [] => dau
  | p2 :: ps' =>
      let '(dau1, dau2) := dau in
      let dau' :=
        if FirstMother p2 =? i1
        then (if dau1 <? 0 then i2 else Z.min dau1 i2,
              if dau2 <? 0 then i2 else Z.max dau2 i2)
        else dau in
      scan_mothers i1 ps' (i2 + 1) dau'
  end.

Definition finalize_entry (r : GHepRecord) (i1 : Z) : GHepRecord :=
  let '(dau1, dau2) := scan_mothers i1 (particles r) 0 (-1, -1) in
  set_slot (SetLastDaughter dau2) i1 (set_slot (SetFirstDaughter dau1) i1 r).

(** [GHepRecord::FinalizeDaughterLists] *)
Definition FinalizeDaughterLists (r : GHepRecord) : GHepRecord :=
  foldl finalize_entry r (seqZ 0 (GetEntries r)).

(** One turn of the inner loop of [CompactifyDaughterLists]; the state is the
    record, [start] and [ndau]. *)
Definition scan_step (i : Z) (st : GHepRecord * Z * Z) (k : Z)
    : outcome (GHepRecord * Z * Z) :=
  let '(r, start, ndau) := st in
  p ← deref (GetParticle r k);
  if FirstMother p =? i
  then r' ← SwapParticles r start k; Returns (r', start + 1, ndau + 1)
  else Returns st.

(** One turn of the outer loop of [CompactifyDaughterLists]; the state is the
    record and [start]. *)
Definition compactify_entry (n : Z) (st : GHepRecord * Z) (i : Z)
    : outcome (GHepRecord * Z) :=
  let '(r, start) := st in
  let compact := HasCompactDaughterList r i in
  if negb compact then
    let dau1 := start in
    '(r, start, ndau) ←
      oloop (scan_step i) (seqZ (start + 1) (n - (start + 1))) (r, start, 0);
    if 0 <? ndau then
      r ← update_slot (SetFirstDaughter dau1) i r;
      r ← update_slot (SetLastDaughter (dau1 + ndau)) i r;
      Returns (r, start)
    else
      r ← update_slot (SetFirstDaughter (-1)) i r;
      r ← update_slot (SetLastDaughter (-1)) i r;
      Returns (r, start)
  else Returns st.

(** The [for(int i=0; i<n; i++)] loop of [CompactifyDaughterLists]. *)
Definition CompactifyPhase1 (r : GHepRecord) : outcome GHepRecord :=
  let n := GetEntries r in
  let start := FirstNonInitStateEntry r in
  '(r, _) ← oloop (compactify_entry n) (seqZ 0 n) (r, start);
  Returns r.

(** [GHepRecord::CompactifyDaughterLists] *)
Definition CompactifyDaughterLists (r : GHepRecord) : outcome GHepRecord :=
  r ← CompactifyPhase1 r;
  Returns (FinalizeDaughterLists r).

(** ** Appending *)

(** The return path taken by [UpdateDaughterLists]. *)
Inductive UpdatePath : Type :=
| NoMother          (* either [return] on a missing mother *)
| ListWasEmpty      (* "the daughter list was initially empty" *)
| AddedJustBefore   (* "the slot just before an already compact daughter list" *)
| AddedJustAfter    (* "the slot just after an already compact daughter list" *)
| RanCompactifier.  (* "Running compactifier" *)

(** [GHepRecord::UpdateDaughterLists], returning also the path it took. *)
Definition UpdateDaughterLists (r : GHepRecord) : outcome (UpdatePath * GHepRecord) :=
  let pos := GetEntries r - 1 in
  match GetParticle r pos with
  | None => Aborts
  | Some p =>
      let mom_pos := FirstMother p in
      if mom_pos =? -1 then Returns (NoMother, r)
      else match GetParticle r mom_pos with
      | None => Returns (NoMother, r)
      | Some mom =>
          let dau1 := FirstDaughter mom in
          let dau2 := LastDaughter mom in
          if dau1 =? -1 then
            Returns (ListWasEmpty,
                     set_slot (SetLastDaughter pos) mom_pos
                       (set_slot (SetFirstDaughter pos) mom_pos r))
          else if pos =? dau1 - 1 then
            Returns (AddedJustBefore, set_slot (SetFirstDaughter pos) mom_pos r)
          else if pos =? dau2 + 1 then
            Returns (AddedJustAfter, set_slot (SetLastDaughter pos) mom_pos r)
          else
            r' ← CompactifyDaughterLists r;
            Returns (RanCompactifier, r')
      end
  end.

(** [GHepRecord::AddParticle(const GHepParticle & p)]: the copy is constructed
    in the slot at [GetEntries()], which extends the array by one. *)
Definition AddParticle (r : GHepRecord) (p : GHepParticle) : outcome (UpdatePath * GHepRecord) :=
  UpdateDaughterLists (with_particles r (particles r ++ [p])).

(** [GHepRecord::AddParticle(pdg, status, mom1, mom2, dau1, dau2, p, v)] *)
Definition AddParticle_vec (r : GHepRecord) (pdg : Z) (status : GHepStatus_t)
    (mom1 mom2 dau1 dau2 : Z) (p v : TLorentzVector) : outcome (UpdatePath * GHepRecord) :=
  UpdateDaughterLists
    (with_particles r (particles r ++ [mkGHepParticle pdg status mom1 mom2 dau1 dau2 p v])).

(** [GHepRecord::AddParticle(pdg, status, mom1, mom2, dau1, dau2, px, py, pz,
    E, x, y, z, t)] *)
Definition AddParticle_raw (r : GHepRecord) (pdg : Z) (status : GHepStatus_t)
    (mom1 mom2 dau1 dau2 : Z) (px py pz E x y z t : float)
    : outcome (UpdatePath * GHepRecord) :=
  UpdateDaughterLists
    (with_particles r
       (particles r ++ [mkGHepParticle pdg status mom1 mom2 dau1 dau2
                          (mkTLorentzVector px py pz E) (mkTLorentzVector x y z t)])).

(** Appending a sequence of entries, keeping the path of each append. *)
Fixpoint AddParticles (r : GHepRecord) (ps : list GHepParticle)
    : outcome (list UpdatePath * GHepRecord) :=
  match ps with
  | [] => Returns ([], r)
  | p :: ps' =>
      '(path, r') ← AddParticle r p;
      '(paths, r'') ← AddParticles r' ps';
      Returns (path :: paths, r'')
  end.

(** ** The attached summary: initialisation, clean-up and copy *)

Section Summary.
(** Modelled from the spec: the [Interaction] class is not part of the
    sources; it is an opaque, copy-constructible summary, and copying it
    yields an equal value. *)
Context {Interaction : Type}.

Definition Interaction_copy (i : Interaction) : Interaction := i.

(** [new Interaction(i)]: a fresh address holds the copy. *)
Definition new_Interaction (i : Interaction) (h : gmap addr Interaction)
    : addr * gmap addr Interaction :=
  let a := fresh (dom h) in (a, <[a := Interaction_copy i]> h).

(** [delete a]: defined for a live object only. *)
Definition delete_Interaction (a : addr) (h : gmap addr Interaction)
    : outcome (gmap addr Interaction) :=
  match h !! a with
  | Some _ => Returns (delete a h)
  | None => Aborts
  end.

(** [GHepRecord::InitGHepRecord]; [SetOwner(true)] concerns the ownership
    of the array slots only. *)
Definition InitGHepRecord (r : GHepRecord) : GHepRecord :=
  let r := AttachInteraction r None in
  let r := SwitchIsPauliBlocked false r in
  let r := SwitchIsBelowThrNRF false r in
  SwitchGenericErrFlag false r.

(** [GHepRecord::CleanUpGHepRecord]; [Clear("C")] empties the array. *)
Definition CleanUpGHepRecord (r : GHepRecord) (h : gmap addr Interaction)
    : outcome (GHepRecord * gmap addr Interaction) :=
  h ← match fInteraction r with
      | Some a => delete_Interaction a h
      | None => Returns h
      end;
  Returns (with_particles r [], h).

(** [GHepRecord::ResetGHepRecord] *)
Definition ResetGHepRecord (r : GHepRecord) (h : gmap addr Interaction)
    : outcome (GHepRecord * gmap addr Interaction) :=
  '(r, h) ← CleanUpGHepRecord r h;
  Returns (InitGHepRecord r, h).

(** Modelled from the spec: the copy constructor of [GHepParticle] is not
    part of the sources; it duplicates every field. *)
Definition GHepParticle_copy (p : GHepParticle) : GHepParticle := p.

(** [GHepRecord::Copy]; [this] and [record] are two distinct objects. *)
Definition Copy (this record : GHepRecord) (h : gmap addr Interaction)
    : outcome (GHepRecord * gmap addr Interaction) :=
  '(this, h) ← ResetGHepRecord this h;
  let this :=
    foldl (λ t p, with_particles t (particles t ++ [GHepParticle_copy p]))
          this (particles record) in
  a ← deref (fInteraction record);
  i ← deref (h !! a);
  let '(a', h) := new_Interaction i h in
  Returns (mkGHepRecord (particles this) (Some a') (fIsPauliBlocked record)
             (fIsBelowThrNRF record) (fGenericErrFlag record), h).

(** [GHepRecord::GHepRecord(const GHepRecord & record)] *)
Definition GHepRecord_copy (record : GHepRecord) (h : gmap addr Interaction)
    : outcome (GHepRecord * gmap addr Interaction) :=
  Copy (InitGHepRecord (mkGHepRecord [] None false false false)) record h.

(** The heap once [ResetGHepRecord] has deleted the summary of [this]. *)
Definition heap_after_reset (this : GHepRecord) (h : gmap addr Interaction)
    : gmap addr Interaction :=
  match fInteraction this with
  | Some b => delete b h
  | None => h
  end.
End Summary.

(** ** The properties, as the specification states them *)

(** The entry at [k] names [m] as its first mother. *)
Definition is_daughter_of (r : GHepRecord) (m k : Z) : Prop :=
  ∃ p, GetParticle r k = Some p ∧ FirstMother p = m.

(** All positions whose first mother is [m]. *)
Definition daughter_positions (r : GHepRecord) (m : Z) : list Z :=
  filter (λ k, FirstMother <$> GetParticle r k = Some m) (seqZ 0 (GetEntries r)).

(** Every consecutive pair differs by at most 1. *)
Definition consecutive_close (s : list Z) : Prop :=
  ∀ j a b, s !! j = Some a → s !! S j = Some b → Z.abs (a - b) ≤ 1.

(** The compactness check: fewer than two daughters, or else the sorted
    positions are pairwise close. *)
Definition compact_by_spec (r : GHepRecord) (m : Z) : Prop :=
  let ds := daughter_positions r m in
  (length ds < 2)%nat ∨ ∀ s, s ≡ₚ ds → Sorted Z.le s → consecutive_close s.

(** The invariant: every entry with a non-empty daughter range has exactly
    its daughters inside that range. *)
Definition daughter_ranges_exact (r : GHepRecord) : Prop :=
  ∀ i p, GetParticle r i = Some p → FirstDaughter p ≠ -1 →
    ∀ k, is_daughter_of r i k ↔ FirstDaughter p ≤ k ≤ LastDaughter p.

(** Where the occupant of a slot sits after the slots [a] and [b] are
    exchanged. *)
Definition moved (a b k : Z) : Z :=
  if k =? a then b else if k =? b then a else k.

(** The swap contract: after the exchange every entry sits in its new slot,
    with its first mother re-pointed to the slot that now holds the
    mother. *)
Definition swap_contract (r : GHepRecord) (a b : Z) (r' : GHepRecord) : Prop :=
  ∀ k p, GetParticle r k = Some p →
    GetParticle r' (moved a b k) = Some (SetFirstMother (moved a b (FirstMother p)) p).

(** ** Auxiliary definitions *)

(** The record [r] with the slot at [k] replaced by [q]. *)
Definition with_slot (r : GHepRecord) (k : Z) (q : GHepParticle) : GHepRecord :=
  with_particles r (<[Z.to_nat k := q]> (particles r)).

Definition with_range (dau1 dau2 : Z) (p : GHepParticle) : GHepParticle :=
  SetLastDaughter dau2 (SetFirstDaughter dau1 p).

(** One turn of [scan_mothers] on a daughter at [i2]. *)
Definition minmax_step (dau : Z * Z) (i2 : Z) : Z * Z :=
  (if dau.1 <? 0 then i2 else Z.min dau.1 i2,
   if dau.2 <? 0 then i2 else Z.max dau.2 i2).

(** The range the derivation pass computes for the position [i]. *)
Definition derived_range (r : GHepRecord) (i : Z) : Z * Z :=
  scan_mothers i (particles r) 0 (-1, -1).

Definition rederive (r : GHepRecord) (i : Z) (p : GHepParticle) : GHepParticle :=
  with_range (derived_range r i).1 (derived_range r i).2 p.

(** ** Example records *)

Definition origin : TLorentzVector := mkTLorentzVector 0 0 0 0.

(** An entry with the given type code, role and first mother, no second
    mother and no daughters. *)
Definition entry (pdg : Z) (status : GHepStatus_t) (mom : Z) : GHepParticle :=
  mkGHepParticle pdg status mom (-1) (-1) (-1) origin origin.

(** [GHepRecord::GHepRecord()] *)
Definition empty_record : GHepRecord :=
  InitGHepRecord (mkGHepRecord [] None false false false).

(** Scenario A: mothers (-1, 0, 0). *)
Definition scenario_A : list GHepParticle :=
  [entry 14 kIStInitialState (-1); entry 13 kIStStableFinalState 0;
   entry 211 kIStStableFinalState 0].

(** Scenario B: mothers (-1, 0, -1, 0). *)
Definition scenario_B : list GHepParticle :=
  [entry 14 kIStInitialState (-1); entry 13 kIStStableFinalState 0;
   entry 22 kIStStableFinalState (-1); entry 211 kIStStableFinalState 0].

(** A decay chain: mothers (-1, 0, 1, 0); the entry at 2 is a daughter of the
    entry at 1. *)
Definition scenario_chain : list GHepParticle :=
  [entry 14 kIStInitialState (-1); entry 111 kIStDecayedState 0;
   entry 22 kIStStableFinalState 1; entry 211 kIStStableFinalState 0].

(** Mothers (-1, -1, 0, -1, 0): the slot at the cursor is not a daughter. *)
Definition scenario_gap : list GHepParticle :=
  [entry 14 kIStInitialState (-1); entry 22 kIStStableFinalState (-1);
   entry 13 kIStStableFinalState 0; entry 2112 kIStStableFinalState (-1);
   entry 211 kIStStableFinalState 0].

(** The record after the entries [ps] are placed and the cheap updates have
    run, at the point where the last append enters
    [CompactifyDaughterLists]. *)
Definition before_compaction (ps : list GHepParticle) : GHepRecord :=
  match AddParticles empty_record (removelast ps) with
  | Returns (_, r) =>
      with_particles r (particles r ++ [List.last ps (entry 0 kIStInitialState (-1))])
  | Aborts => empty_record
  end.

(** Scenario A once its third entry is placed, before the update runs. *)
Definition scenario_A_placed : GHepRecord :=
  with_particles empty_record
    [with_range 1 1 (entry 14 kIStInitialState (-1)); entry 13 kIStStableFinalState 0;
     entry 211 kIStStableFinalState 0].

(** Scenario B after the compactifier has exchanged the slots 1 and 3, the
    entry at 0 carrying the daughter range [dau1, dau2]. *)
Definition gap_free_B (dau1 dau2 : Z) : GHepRecord :=
  with_particles empty_record
    [with_range dau1 dau2 (entry 14 kIStInitialState (-1)); entry 211 kIStStableFinalState 0;
     entry 22 kIStStableFinalState (-1); entry 13 kIStStableFinalState 0].

(** Scenario B after its four appends. *)
Definition scenario_B_appended : GHepRecord := gap_free_B 1 3.

(** Scenario B after one more run of the compactifier. *)
Definition scenario_B_recompacted : GHepRecord :=
  with_particles empty_record
    [with_range 1 3 (entry 14 kIStInitialState (-1)); entry 13 kIStStableFinalState 0;
     entry 22 kIStStableFinalState (-1); entry 211 kIStStableFinalState 0].

(** The decay chain at the point where its fourth append enters the
    compactifier. *)
Definition chain_before : GHepRecord :=
  with_particles empty_record
    [with_range 1 1 (entry 14 kIStInitialState (-1));
     with_range 2 2 (entry 111 kIStDecayedState 0);
     entry 22 kIStStableFinalState 1; entry 211 kIStStableFinalState 0].

(** The same record after [SwapParticles(1,3)]. *)
Definition chain_swapped : GHepRecord :=
  with_particles empty_record
    [with_range 1 1 (entry 14 kIStInitialState (-1));
     entry 211 kIStStableFinalState 0;
     entry 22 kIStStableFinalState 1;
     with_range 2 2 (entry 111 kIStDecayedState 0)].

(** The record of [scenario_gap] at the point where its fifth append enters
    the compactifier. *)
Definition gap_before : GHepRecord :=
  with_particles empty_record
    [with_range 2 2 (entry 14 kIStInitialState (-1)); entry 22 kIStStableFinalState (-1);
     entry 13 kIStStableFinalState 0; entry 2112 kIStStableFinalState (-1);
     entry 211 kIStStableFinalState 0].

(** The same record after the scan for the position 0, the entry at 0
    carrying the daughter range [dau1, dau2]. *)
Definition gap_scanned (dau1 dau2 : Z) : GHepRecord :=
  with_particles empty_record
    [with_range dau1 dau2 (entry 14 kIStInitialState (-1)); entry 13 kIStStableFinalState 0;
     entry 211 kIStStableFinalState 0; entry 2112 kIStStableFinalState (-1);
     entry 22 kIStStableFinalState (-1)].

(** A heap with one summary, at the address 1. *)
Definition one_summary : gmap addr Z := {[ 1%positive := 42 ]}.

Definition scenario_A_with_summary : GHepRecord :=
  AttachInteraction (SwitchIsPauliBlocked true scenario_A_placed) (Some 1%positive).


(** ** Further properties of the code: definitions *)

(** The test of [FindParticle] and [ParticlePosition]. *)
Definition matches (pdg : Z) (status : GHepStatus_t) (p : GHepParticle) : Prop :=
  Status p = status ∧ PdgCode p = pdg.


(** The roles [FirstNonInitStateEntry] skips. *)
Definition is_init_state (p : GHepParticle) : Prop :=
  Status p = kIStInitialState ∨ Status p = kIstNucleonTarget.

(** The daughters of [m] occupy consecutive positions. *)
Definition daughters_contiguous (r : GHepRecord) (m : Z) : Prop :=
  ∀ a b k, is_daughter_of r m a → is_daughter_of r m b → a ≤ k ≤ b →
    is_daughter_of r m k.

(** Every daughter range of the record lies inside the record. *)
Definition ranges_in_bounds (r : GHepRecord) : Prop :=
  ∀ i p, GetParticle r i = Some p → HasDaughters p = true →
    0 ≤ FirstDaughter p ∧ LastDaughter p < GetEntries r.

(** An entry with its first mother blanked: what a swap carries along. *)
Definition but_mother (p : GHepParticle) : GHepParticle := SetFirstMother 0 p.

(** [ranges_in_bounds], as a test. *)
Definition ranges_in_boundsb (r : GHepRecord) : bool :=
  forallb (λ p, negb (HasDaughters p) ||
                ((0 <=? FirstDaughter p) && (LastDaughter p <? GetEntries r)))
          (particles r).

(** A record built in genealogical order with exact daughter ranges: every
    mother precedes her daughters, an entry with the range (-1,-1) has no
    daughter, and any other range is non-empty and holds exactly the
    daughters. *)
Definition genealogy_exact (r : GHepRecord) : Prop :=
  (∀ k q, GetParticle r k = Some q → -1 ≤ FirstMother q < k) ∧
  (∀ i p, GetParticle r i = Some p →
     (FirstDaughter p = -1 → ∀ k, ¬ is_daughter_of r i k) ∧
     (FirstDaughter p ≠ -1 →
        FirstDaughter p ≤ LastDaughter p ∧
        ∀ k, is_daughter_of r i k ↔ FirstDaughter p ≤ k ≤ LastDaughter p)).

(** What an entry carries besides its links to other slots. *)
Definition payload (p : GHepParticle)
    : Z * GHepStatus_t * Z * TLorentzVector * TLorentzVector :=
  (PdgCode p, Status p, LastMother p, P4 p, X4 p).

(** The summary pointer and the three flags of a record. *)
Definition frame (r : GHepRecord) : option addr * bool * bool * bool :=
  (fInteraction r, fIsPauliBlocked r, fIsBelowThrNRF r, fGenericErrFlag r).

(** What [ShiftVertex] does to one entry. *)
Definition shifted (vec4 : TLorentzVector) (p : GHepParticle) : GHepParticle :=
  SetVertex (fX vec4 + fX (X4 p)) (fY vec4 + fY (X4 p))
            (fZ vec4 + fZ (X4 p)) (fT vec4 + fT (X4 p)) p.

(** ** The messenger's priority levels *)

(** The levels of [log4cpp::Priority] that [Messenger::PriorityFromString]
    returns; log4cpp is an external library. *)
Inductive Priority : Type :=
| FATAL | ALERT | CRIT | ERROR | WARN | NOTICE | INFO | DEBUG.

(** [p.find(s)] of [std::string]: the first position at which [s] occurs in
    [p], [None] for [string::npos]. *)
Fixpoint string_find (s p : string) : option nat :=
  if String.prefix s p then Some 0%nat
  else match p with
       | EmptyString => None
       | String _ p' => S <$> string_find s p'
       end.

(** [p.find(s) != string::npos] *)
Definition found (s p : string) : bool :=
  match string_find s p with
  | Some _ => true
  | None => false
  end.

(** [Messenger::PriorityFromString] *)
Definition PriorityFromString (p : string) : Priority :=
  if found "FATAL" p then FATAL
  else if found "ALERT" p then ALERT
  else if found "CRIT" p then CRIT
  else if found "ERROR" p then ERROR
  else if found "WARN" p then WARN
  else if found "NOTICE" p then NOTICE
  else if found "INFO" p then INFO
  else if found "DEBUG" p then DEBUG
  else INFO.

(** The keyword tested for each level, and the order of the tests. *)
Definition keyword (pr : Priority) : string :=
  match pr with
  | FATAL => "FATAL" | ALERT => "ALERT" | CRIT => "CRIT" | ERROR => "ERROR"
  | WARN => "WARN" | NOTICE => "NOTICE" | INFO => "INFO" | DEBUG => "DEBUG"
  end.

Definition test_order (pr : Priority) : nat :=
  match pr with
  | FATAL => 0 | ALERT => 1 | CRIT => 2 | ERROR => 3
  | WARN => 4 | NOTICE => 5 | INFO => 6 | DEBUG => 7
  end%nat.

(** The text [s] occurs somewhere in [p]. *)
Definition occurs_in (s p : string) : Prop :=
  ∃ a b, p = a +:+ s +:+ b.

(** ** Further example records *)

(** Scenario A with its three entries in place and no daughter range set. *)
Definition scenario_A_unlinked : GHepRecord :=
  with_particles empty_record scenario_A.

(** The record after the first three entries of Scenario B are appended. *)
Definition scenario_B_three : GHepRecord :=
  match AddParticles empty_record (removelast scenario_B) with
  | Returns (_, r) => r
  | Aborts => empty_record
  end.

(** The record after the first entry of Scenario A is appended. *)
Definition scenario_A_one : GHepRecord :=
  match AddParticle empty_record (entry 14 kIStInitialState (-1)) with
  | Returns (_, r) => r
  | Aborts => empty_record
  end.

(** ** Reading and writing slots *)

Lemma bind_Returns {A B} (m : outcome A) (k : A → outcome B) (b : B) :
  m ≫= k = Returns b ↔ ∃ a, m = Returns a ∧ k a = Returns b.
Proof.
  destruct m as [a|]; simpl.
  - split; [eauto | intros (a' & [= <-] & Hk); exact Hk].
  - split; [discriminate | intros (a' & [=] & _)].
Qed.

Lemma GetParticle_Some (r : GHepRecord) (k : Z) (p : GHepParticle) :
  GetParticle r k = Some p ↔ 0 ≤ k ∧ particles r !! Z.to_nat k = Some p.
Proof.
  unfold GetParticle, at_slot, GetEntries.
  destruct (Z.leb_spec 0 k) as [Hk|Hk]; simpl.
  - destruct (Z.ltb_spec k (Z.of_nat (length (particles r)))) as [Hn|Hn].
    + intuition.
    + split; [discriminate|]. intros [_ Hl]. apply lookup_lt_Some in Hl. lia.
  - split; [discriminate | lia].
Qed.

Lemma GetParticle_None (r : GHepRecord) (k : Z) :
  GetParticle r k = None ↔ k < 0 ∨ GetEntries r ≤ k.
Proof.
  unfold GetParticle, at_slot, GetEntries.
  destruct (Z.leb_spec 0 k) as [Hk|Hk]; simpl; [|intuition lia].
  destruct (Z.ltb_spec k (Z.of_nat (length (particles r)))) as [Hn|Hn];
    [|intuition lia].
  rewrite lookup_ge_None. lia.
Qed.

Lemma GetParticle_is_Some (r : GHepRecord) (k : Z) :
  is_Some (GetParticle r k) ↔ 0 ≤ k < GetEntries r.
Proof.
  rewrite <- not_eq_None_Some, GetParticle_None. lia.
Qed.

Lemma GetEntries_set_slot f k r : GetEntries (set_slot f k r) = GetEntries r.
Proof. unfold GetEntries, set_slot; simpl. by rewrite length_alter. Qed.

Lemma GetParticle_set_slot_eq f k r p :
  GetParticle r k = Some p → GetParticle (set_slot f k r) k = Some (f p).
Proof.
  rewrite !GetParticle_Some. intros [Hk Hp]. split; [done|].
  unfold set_slot; simpl. by rewrite list_lookup_alter_eq, Hp.
Qed.

Lemma GetParticle_set_slot_ne f k r j :
  0 ≤ k → j ≠ k → GetParticle (set_slot f k r) j = GetParticle r j.
Proof.
  intros Hk Hne. apply option_eq; intros p. rewrite !GetParticle_Some.
  unfold set_slot; simpl.
  destruct (decide (0 ≤ j)); [|intuition lia].
  rewrite list_lookup_alter_ne by lia. done.
Qed.

(** ** Daughters of a position *)

Lemma elem_of_collect_daughters m ps i k :
  k ∈ collect_daughters m ps i ↔
  i ≤ k ∧ ∃ p, ps !! Z.to_nat (k - i) = Some p ∧ FirstMother p = m.
Proof.
  revert i. induction ps as [|q ps IH]; intros i; simpl.
  - rewrite elem_of_nil. split; [done|]. by intros (_ & p & Hp & _).
  - assert (Hshift : ∀ p, i + 1 ≤ k →
              (q :: ps) !! Z.to_nat (k - i) = Some p ↔
              ps !! Z.to_nat (k - (i + 1)) = Some p).
    { intros p Hle. replace (Z.to_nat (k - i)) with (S (Z.to_nat (k - (i + 1)))) by lia.
      done. }
    destruct (Z.eqb_spec (FirstMother q) m) as [Hm|Hm].
    + rewrite elem_of_cons, IH. split.
      * intros [->|(Hle & p & Hp & Hpm)].
        -- split; [lia|]. exists q. by rewrite Z.sub_diag.
        -- split; [lia|]. exists p. by rewrite Hshift.
      * intros (Hle & p & Hp & Hpm).
        destruct (decide (k = i)) as [->|Hne]; [by left|right].
        split; [lia|]. exists p. by rewrite <- Hshift by lia.
    + rewrite IH. split.
      * intros (Hle & p & Hp & Hpm). split; [lia|]. exists p. by rewrite Hshift.
      * intros (Hle & p & Hp & Hpm).
        destruct (decide (k = i)) as [->|Hne].
        { rewrite Z.sub_diag in Hp. simpl in Hp. congruence. }
        split; [lia|]. exists p. by rewrite <- Hshift by lia.
Qed.

Lemma collect_daughters_sorted m ps i :
  StronglySorted Z.lt (collect_daughters m ps i).
Proof.
  revert i. induction ps as [|q ps IH]; intros i; simpl; [constructor|].
  destruct (FirstMother q =? m); [|apply IH].
  constructor; [apply IH|].
  apply Forall_forall. intros k Hk%elem_of_collect_daughters. lia.
Qed.

Lemma elem_of_collect_daughters_record r m k :
  k ∈ collect_daughters m (particles r) 0 ↔ is_daughter_of r m k.
Proof.
  rewrite elem_of_collect_daughters, Z.sub_0_r. unfold is_daughter_of. split.
  - intros (Hk & p & Hp & Hm). exists p. by rewrite GetParticle_Some.
  - intros (p & [Hk Hp]%GetParticle_Some & Hm). eauto.
Qed.

Lemma collect_daughters_NoDup m ps i : NoDup (collect_daughters m ps i).
Proof.
  pose proof (collect_daughters_sorted m ps i) as Hs.
  induction Hs as [|k l Hl IH Hall]; constructor; [|done].
  intros Hin. rewrite Forall_forall in Hall. specialize (Hall _ Hin). lia.
Qed.

(** ** The compactness check, as the specification words it *)

Lemma elem_of_daughter_positions r m k :
  k ∈ daughter_positions r m ↔ is_daughter_of r m k.
Proof.
  unfold daughter_positions, is_daughter_of.
  rewrite list_elem_of_filter, elem_of_seqZ, fmap_Some. split.
  - intros [(p & Hp & Hm) _]. eauto.
  - intros (p & Hp & Hm). split; [eauto|].
    assert (is_Some (GetParticle r k)) as Hk%GetParticle_is_Some by eauto. lia.
Qed.

Lemma collect_daughters_positions r m :
  collect_daughters m (particles r) 0 ≡ₚ daughter_positions r m.
Proof.
  apply NoDup_Permutation.
  - apply collect_daughters_NoDup.
  - apply NoDup_filter, NoDup_seqZ.
  - intros k. by rewrite elem_of_collect_daughters_record, elem_of_daughter_positions.
Qed.

Lemma consecutive_close_cons a b s :
  consecutive_close (a :: b :: s) ↔ Z.abs (a - b) ≤ 1 ∧ consecutive_close (b :: s).
Proof.
  unfold consecutive_close. split.
  - intros H. split; [by apply (H 0%nat)|].
    intros j x y Hx Hy. by apply (H (S j)).
  - intros [Hab H] [|j] x y Hx Hy; simpl in *; [congruence|]. by apply (H j).
Qed.

Lemma consecutive_close_singleton a : consecutive_close [a].
Proof. intros j x y _ Hy. done. Qed.

Lemma check_adjacent_true s prev b :
  check_adjacent s prev b = true ↔ b = true ∧ consecutive_close (prev :: s).
Proof.
  revert prev b. induction s as [|curr rest IH]; intros prev b; simpl.
  - split; [intros ->; split; [done|apply consecutive_close_singleton]|by intros [-> _]].
  - rewrite IH, consecutive_close_cons, andb_true_iff, Z.leb_le. tauto.
Qed.

Lemma check_adjacent_head s :
  check_adjacent s (default 0 (head s)) true = true ↔ consecutive_close s.
Proof.
  destruct s as [|a s]; simpl.
  - split; [|done]. intros _ j x y Hx. done.
  - rewrite check_adjacent_true, Z.leb_le.
    replace (a - a) with 0 by lia. simpl. split; [tauto | split; [lia | done]].
Qed.

(** C8.  The compactness check for a candidate mother position [m], on any
    record: it collects all positions whose first mother is [m] (the list
    [daughter_positions] holds exactly those positions) and answers
    "compact" when there are fewer than two; otherwise it answers "compact"
    exactly when, once the collected positions are sorted, every consecutive
    pair differs by at most 1. *)
Theorem HasCompactDaughterList_spec (r : GHepRecord) (m : Z) :
  (∀ k, k ∈ daughter_positions r m ↔ is_daughter_of r m k) ∧
  (HasCompactDaughterList r m = true ↔ compact_by_spec r m).
Proof.
  split; [intros k; apply elem_of_daughter_positions|].
  unfold HasCompactDaughterList, compact_by_spec.
  pose proof (collect_daughters_positions r m) as Hperm.
  set (ds := collect_daughters m (particles r) 0) in *.
  rewrite <- (Permutation_length Hperm).
  destruct (Nat.ltb_spec 1 (length ds)) as [Hlen|Hlen].
  - rewrite check_adjacent_head. split.
    + intros Hclose. right. intros s Hs Hsorted.
      replace s with (merge_sort Z.le ds); [done|].
      apply (Sorted_unique Z.le); [apply (Sorted_merge_sort Z.le)|done|].
      by rewrite merge_sort_Permutation, Hperm.
    + intros [Hlt|Hall]; [lia|]. apply Hall.
      * by rewrite merge_sort_Permutation.
      * apply (Sorted_merge_sort Z.le).
  - split; [intros _; left; lia|done].
Qed.

(** ** The derivation pass *)

Lemma scan_mothers_fold i1 ps i2 dau :
  scan_mothers i1 ps i2 dau = foldl minmax_step dau (collect_daughters i1 ps i2).
Proof.
  revert i2 dau. induction ps as [|p2 ps IH]; intros i2 [dau1 dau2]; simpl; [done|].
  destruct (FirstMother p2 =? i1); simpl; by rewrite IH.
Qed.

Lemma foldl_minmax_bounds D a b :
  0 ≤ a → 0 ≤ b → Forall (λ k, 0 ≤ k) D →
  ∃ a' b', foldl minmax_step (a, b) D = (a', b') ∧
    0 ≤ a' ∧ a' ≤ a ∧ b ≤ b' ∧
    Forall (λ k, a' ≤ k ≤ b') D ∧
    (a' = a ∨ a' ∈ D) ∧ (b' = b ∨ b' ∈ D).
Proof.
  revert a b. induction D as [|k D IH]; intros a b Ha Hb HD; simpl.
  - exists a, b. repeat split; auto; lia.
  - apply Forall_cons in HD as [Hk HD].
    assert (minmax_step (a, b) k = (Z.min a k, Z.max b k)) as ->.
    { unfold minmax_step; simpl.
      destruct (Z.ltb_spec a 0) as [?|_]; [lia|].
      by destruct (Z.ltb_spec b 0) as [?|_]; [lia|]. }
    destruct (IH (Z.min a k) (Z.max b k)) as (a' & b' & Hfold & H0 & Hle & Hge & Hall & Hina & Hinb);
      [lia|lia|done|].
    rewrite Hfold.
    exists a', b'. repeat split; [done|lia|lia| | |].
    + constructor; [lia|done].
    + destruct Hina as [->|Hin]; [|right; by right].
      destruct (Z.min_spec a k) as [[_ ->]|[_ ->]]; [by left|right; by left].
    + destruct Hinb as [->|Hin]; [|right; by right].
      destruct (Z.max_spec b k) as [[_ ->]|[_ ->]]; [right; by left|by left].
Qed.

Lemma derived_range_spec r i :
  ((∀ k, ¬ is_daughter_of r i k) → derived_range r i = (-1, -1)) ∧
  (∀ k, is_daughter_of r i k →
     is_daughter_of r i (derived_range r i).1 ∧
     is_daughter_of r i (derived_range r i).2 ∧
     (derived_range r i).1 ≤ k ≤ (derived_range r i).2).
Proof.
  unfold derived_range. rewrite scan_mothers_fold.
  setoid_rewrite <- elem_of_collect_daughters_record.
  assert (Hnn : Forall (λ k, 0 ≤ k) (collect_daughters i (particles r) 0)).
  { apply Forall_forall. intros k Hk%elem_of_collect_daughters. lia. }
  destruct (collect_daughters i (particles r) 0) as [|k0 D]; simpl.
  - split; [done|]. intros k Hk. by apply elem_of_nil in Hk.
  - apply Forall_cons in Hnn as [Hk0 HD].
    change (minmax_step (-1, -1) k0) with (k0, k0).
    destruct (foldl_minmax_bounds D k0 k0) as (a' & b' & Hfold & H0 & Hle & Hge & Hall & Hina & Hinb);
      [done..|]. rewrite Hfold. simpl.
    split; [intros Hno; destruct (Hno k0); by left|].
    intros k Hk. split_and!.
    + destruct Hina as [->|?]; [by left|by right].
    + destruct Hinb as [->|?]; [by left|by right].
    + apply elem_of_cons in Hk as [->|Hk]; [lia|].
      rewrite Forall_forall in Hall. specialize (Hall _ Hk). lia.
    + apply elem_of_cons in Hk as [->|Hk]; [lia|].
      rewrite Forall_forall in Hall. specialize (Hall _ Hk). lia.
Qed.

Lemma collect_daughters_mothers m ps ps' i :
  FirstMother <$> ps = FirstMother <$> ps' →
  collect_daughters m ps i = collect_daughters m ps' i.
Proof.
  revert ps' i. induction ps as [|p ps IH]; intros [|p' ps'] i; simpl; try done.
  intros [= Hp Hps]. rewrite Hp. destruct (FirstMother p' =? m); erewrite IH; done.
Qed.

Lemma derived_range_mothers r r' i :
  FirstMother <$> particles r = FirstMother <$> particles r' →
  derived_range r i = derived_range r' i.
Proof.
  intros H. unfold derived_range.
  by rewrite !scan_mothers_fold, (collect_daughters_mothers _ _ _ _ H).
Qed.

Lemma mothers_set_slot f k r :
  (∀ p, FirstMother (f p) = FirstMother p) →
  FirstMother <$> particles (set_slot f k r) = FirstMother <$> particles r.
Proof.
  intros Hf. unfold set_slot; simpl. apply list_eq. intros j.
  rewrite !list_lookup_fmap.
  destruct (decide (Z.to_nat k = j)) as [<-|Hne].
  - rewrite list_lookup_alter_eq. destruct (particles r !! Z.to_nat k); simpl; by rewrite ?Hf.
  - by rewrite list_lookup_alter_ne.
Qed.

Lemma finalize_entry_eq r i :
  finalize_entry r i =
  set_slot (SetLastDaughter (derived_range r i).2) i
    (set_slot (SetFirstDaughter (derived_range r i).1) i r).
Proof. unfold finalize_entry, derived_range. by destruct (scan_mothers _ _ _ _). Qed.

Lemma finalize_entry_mothers r i :
  FirstMother <$> particles (finalize_entry r i) = FirstMother <$> particles r.
Proof. rewrite finalize_entry_eq. by rewrite !mothers_set_slot. Qed.

Lemma GetParticle_finalize_entry r i j p :
  0 ≤ i → GetParticle r j = Some p →
  GetParticle (finalize_entry r i) j = Some (if decide (j = i) then rederive r i p else p).
Proof.
  intros Hi Hp. rewrite finalize_entry_eq. destruct (decide (j = i)) as [->|Hne].
  - unfold rederive, with_range. by apply GetParticle_set_slot_eq, GetParticle_set_slot_eq.
  - by rewrite !GetParticle_set_slot_ne.
Qed.

Lemma rederive_idemp r i p : rederive r i (rederive r i p) = rederive r i p.
Proof. done. Qed.

Lemma finalize_fold js : ∀ r0,
  (∀ j, j ∈ js → 0 ≤ j) →
  FirstMother <$> particles (foldl finalize_entry r0 js) = FirstMother <$> particles r0 ∧
  ∀ i p, GetParticle r0 i = Some p →
    GetParticle (foldl finalize_entry r0 js) i =
    Some (if decide (i ∈ js) then rederive r0 i p else p).
Proof.
  induction js as [|j js IH]; intros r0 Hjs.
  - split; [done|]. intros i p Hp. case_decide as Hin; [by apply elem_of_nil in Hin|done].
  - assert (Hj : 0 ≤ j) by (apply Hjs; by left).
    destruct (IH (finalize_entry r0 j)) as [Hm Hget]; [intros; apply Hjs; by right|].
    pose proof (finalize_entry_mothers r0 j) as Hm1.
    change (foldl finalize_entry r0 (j :: js))
      with (foldl finalize_entry (finalize_entry r0 j) js).
    split; [by rewrite Hm|].
    intros i p Hp.
    rewrite (Hget i _ (GetParticle_finalize_entry r0 j i p Hj Hp)).
    f_equal. unfold rederive. rewrite !(derived_range_mothers _ r0 i Hm1).
    destruct (decide (i = j)) as [->|Hne].
    + rewrite (decide_True (P := j ∈ j :: js)) by (by left).
      by destruct (decide (j ∈ js)).
    + destruct (decide (i ∈ js)) as [Hin|Hnin].
      * by rewrite (decide_True (P := i ∈ j :: js)) by (by right).
      * rewrite (decide_False (P := i ∈ j :: js)); [done|].
        by intros [?|?]%elem_of_cons.
Qed.

Lemma FinalizeDaughterLists_mothers r :
  FirstMother <$> particles (FinalizeDaughterLists r) = FirstMother <$> particles r.
Proof.
  apply finalize_fold. intros j Hj%elem_of_seqZ. lia.
Qed.

Lemma GetEntries_Finalize r : GetEntries (FinalizeDaughterLists r) = GetEntries r.
Proof.
  unfold GetEntries. f_equal.
  rewrite <- (length_fmap FirstMother), FinalizeDaughterLists_mothers.
  apply length_fmap.
Qed.

Lemma GetParticle_Finalize r i p :
  GetParticle r i = Some p →
  GetParticle (FinalizeDaughterLists r) i = Some (rederive r i p).
Proof.
  intros Hp. unfold FinalizeDaughterLists.
  destruct (finalize_fold (seqZ 0 (GetEntries r)) r) as [_ Hget].
  { intros j Hj%elem_of_seqZ. lia. }
  rewrite (Hget i p Hp). rewrite decide_True; [done|].
  apply elem_of_seqZ.
  assert (is_Some (GetParticle r i)) as Hi%GetParticle_is_Some by eauto. lia.
Qed.

Lemma is_daughter_of_mothers r r' m k :
  FirstMother <$> particles r = FirstMother <$> particles r' →
  is_daughter_of r m k → is_daughter_of r' m k.
Proof.
  intros Hm (p & [Hk Hp]%GetParticle_Some & Hpm).
  assert (Hl : (FirstMother <$> particles r') !! Z.to_nat k = Some m).
  { by rewrite <- Hm, list_lookup_fmap, Hp; simpl; rewrite Hpm. }
  rewrite list_lookup_fmap, fmap_Some in Hl. destruct Hl as (p' & Hp' & Hm').
  exists p'. by rewrite GetParticle_Some.
Qed.

Lemma is_daughter_of_Finalize r m k :
  is_daughter_of (FinalizeDaughterLists r) m k ↔ is_daughter_of r m k.
Proof.
  split; apply is_daughter_of_mothers; by rewrite FinalizeDaughterLists_mothers.
Qed.

(** C6.  When phase 1 of the full compaction completes, the compaction
    returns the outcome of the derivation pass run on the record that phase
    1 leaves.  The pass keeps the number of entries and every field other
    than the daughter range, and overwrites the daughter range of every
    position [i], whatever phase 1 had put there: with (-1,-1) when no entry
    has [i] as first mother, and otherwise with the smallest and the largest
    position among the entries whose first mother is [i]. *)
Theorem Compactify_derivation_pass (r r1 : GHepRecord) :
  CompactifyPhase1 r = Returns r1 →
  ∃ r', CompactifyDaughterLists r = Returns r' ∧
    r' = FinalizeDaughterLists r1 ∧
    GetEntries r' = GetEntries r1 ∧
    ∀ i p, GetParticle r1 i = Some p →
      ∃ dau1 dau2,
        GetParticle r' i = Some (SetLastDaughter dau2 (SetFirstDaughter dau1 p)) ∧
        ((∀ k, ¬ is_daughter_of r' i k) → dau1 = -1 ∧ dau2 = -1) ∧
        (∀ k, is_daughter_of r' i k →
           is_daughter_of r' i dau1 ∧ is_daughter_of r' i dau2 ∧ dau1 ≤ k ≤ dau2).
Proof.
  intros Hr1. exists (FinalizeDaughterLists r1).
  split_and!; [|done|apply GetEntries_Finalize|].
  { unfold CompactifyDaughterLists. by rewrite Hr1. }
  intros i p Hp. destruct (derived_range_spec r1 i) as [Hnone Hsome].
  exists (derived_range r1 i).1, (derived_range r1 i).2.
  split; [by apply GetParticle_Finalize|]. split.
  - intros Hno. rewrite Hnone; [done|]. intros k Hk. apply (Hno k).
    by rewrite is_daughter_of_Finalize.
  - intros k Hk. rewrite !is_daughter_of_Finalize in *. by apply Hsome.
Qed.

(** ** The incremental update *)

Lemma set_slot_with_slot f k r p :
  GetParticle r k = Some p → set_slot f k r = with_slot r k (f p).
Proof.
  intros [Hk Hp]%GetParticle_Some. unfold set_slot, with_slot. f_equal.
  apply list_eq. intros j. destruct (decide (Z.to_nat k = j)) as [<-|Hne].
  - rewrite list_lookup_alter_eq, Hp, list_lookup_insert_eq; [done|].
    by eapply lookup_lt_Some.
  - by rewrite list_lookup_alter_ne, list_lookup_insert_ne.
Qed.

Lemma with_slot_with_slot r k q q' :
  with_slot (with_slot r k q) k q' = with_slot r k q'.
Proof.
  unfold with_slot, with_particles; simpl. f_equal. apply list_insert_insert_eq.
Qed.

Lemma GetParticle_with_slot_eq r k p q :
  GetParticle r k = Some p → GetParticle (with_slot r k q) k = Some q.
Proof.
  rewrite !GetParticle_Some. intros [Hk Hp]. split; [done|].
  unfold with_slot; simpl. apply list_lookup_insert_eq. by eapply lookup_lt_Some.
Qed.

(** C5.  The incremental update that follows each append, for the entry [p]
    just placed at the last position [pos]:
    - no mother ([FirstMother p = -1], or no entry at that position): the
      record is returned as it is;
    - the mother has no daughters: her range becomes [pos, pos];
    - [pos] is just before her range: only [FirstDaughter] is lowered to [pos];
    - [pos] is just after her range: only [LastDaughter] is raised to [pos];
    - otherwise the outcome is that of [CompactifyDaughterLists].
    Only the last case runs the compactifier.  [AddParticle] runs this
    update on the record with the new entry in the last slot.  Consequently
    three entries
    appended to the empty record with mothers (-1, 0, 0) leave the entry at
    0 with the daughter range [1, 2], and no append runs the compactifier. *)
Theorem UpdateDaughterLists_cases :
  (∀ (r : GHepRecord) (p : GHepParticle),
     let pos := GetEntries r - 1 in
     GetParticle r pos = Some p →
     (FirstMother p = -1 → UpdateDaughterLists r = Returns (NoMother, r)) ∧
     (GetParticle r (FirstMother p) = None →
        UpdateDaughterLists r = Returns (NoMother, r)) ∧
     (∀ mom, FirstMother p ≠ -1 → GetParticle r (FirstMother p) = Some mom →
        (FirstDaughter mom = -1 →
           UpdateDaughterLists r =
           Returns (ListWasEmpty,
                    with_slot r (FirstMother p)
                      (SetLastDaughter pos (SetFirstDaughter pos mom)))) ∧
        (FirstDaughter mom ≠ -1 → pos = FirstDaughter mom - 1 →
           UpdateDaughterLists r =
           Returns (AddedJustBefore,
                    with_slot r (FirstMother p) (SetFirstDaughter pos mom))) ∧
        (FirstDaughter mom ≠ -1 → pos ≠ FirstDaughter mom - 1 →
         pos = LastDaughter mom + 1 →
           UpdateDaughterLists r =
           Returns (AddedJustAfter,
                    with_slot r (FirstMother p) (SetLastDaughter pos mom))) ∧
        (FirstDaughter mom ≠ -1 → pos ≠ FirstDaughter mom - 1 →
         pos ≠ LastDaughter mom + 1 →
           UpdateDaughterLists r =
           (r' ← CompactifyDaughterLists r; Returns (RanCompactifier, r'))))) ∧
  (∀ (r : GHepRecord) (p : GHepParticle),
     let placed := with_particles r (particles r ++ [p]) in
     GetParticle placed (GetEntries placed - 1) = Some p ∧
     AddParticle r p = UpdateDaughterLists placed) ∧
  (∀ e0 e1 e2 : GHepParticle,
     FirstMother e0 = -1 → FirstDaughter e0 = -1 →
     FirstMother e1 = 0 → FirstMother e2 = 0 →
     AddParticles empty_record [e0; e1; e2] =
     Returns ([NoMother; ListWasEmpty; AddedJustAfter],
              with_particles empty_record
                [SetLastDaughter 2 (SetFirstDaughter 1 e0); e1; e2])).
Proof.
  split_and!.
  - intros r p pos Hp. unfold UpdateDaughterLists. fold pos. rewrite Hp.
    split_and!.
    + intros ->. done.
    + intros Hnone. rewrite Hnone. by destruct (FirstMother p =? -1).
    + intros mom Hm Hmom. rewrite Hmom.
      destruct (Z.eqb_spec (FirstMother p) (-1)) as [?|_]; [done|].
      split_and!.
      * intros ->. simpl.
        rewrite (set_slot_with_slot _ _ _ _ Hmom).
        erewrite set_slot_with_slot by (by eapply GetParticle_with_slot_eq).
        by rewrite with_slot_with_slot.
      * intros Hd ->. destruct (Z.eqb_spec (FirstDaughter mom) (-1)) as [?|_]; [done|].
        rewrite Z.eqb_refl. by rewrite (set_slot_with_slot _ _ _ _ Hmom).
      * intros Hd Hb ->. destruct (Z.eqb_spec (FirstDaughter mom) (-1)) as [?|_]; [done|].
        destruct (Z.eqb_spec (LastDaughter mom + 1) (FirstDaughter mom - 1)) as [?|_]; [done|].
        rewrite Z.eqb_refl. by rewrite (set_slot_with_slot _ _ _ _ Hmom).
      * intros Hd Hb Ha. destruct (Z.eqb_spec (FirstDaughter mom) (-1)) as [?|_]; [done|].
        destruct (Z.eqb_spec pos (FirstDaughter mom - 1)) as [?|_]; [done|].
        by destruct (Z.eqb_spec pos (LastDaughter mom + 1)) as [?|_].
  - intros r p placed. split; [|done].
    apply GetParticle_Some. unfold placed, GetEntries; simpl.
    rewrite length_app; simpl. split; [lia|].
    replace (Z.to_nat _) with (length (particles r) + 0)%nat by lia.
    by rewrite lookup_app_r, Nat.add_0_r, Nat.sub_diag by lia.
  - intros [] [] [] ; simpl. intros -> -> -> ->. reflexivity.
Qed.

(** ** What the swap and the scan do on every record *)

Lemma update_slot_Returns f k r r' :
  update_slot f k r = Returns r' ↔
  ∃ p, GetParticle r k = Some p ∧ r' = set_slot f k r.
Proof.
  unfold update_slot. destruct (GetParticle r k) as [p|]; simpl.
  - split; [intros [= <-]; eauto | by intros (? & _ & ->)].
  - split; [done | by intros (? & ? & _)].
Qed.

Lemma GetParticle_update_slot f k r r' j :
  update_slot f k r = Returns r' →
  GetParticle r' j = if decide (j = k) then f <$> GetParticle r j else GetParticle r j.
Proof.
  intros (p & Hp & ->)%update_slot_Returns.
  assert (0 ≤ k) by (apply GetParticle_Some in Hp; lia).
  destruct (decide (j = k)) as [->|Hne].
  - rewrite Hp. by apply GetParticle_set_slot_eq.
  - by apply GetParticle_set_slot_ne.
Qed.

Lemma GetEntries_update_slot f k r r' :
  update_slot f k r = Returns r' → GetEntries r' = GetEntries r.
Proof. intros (p & Hp & ->)%update_slot_Returns. apply GetEntries_set_slot. Qed.

(** The loop of [tell_daughters] returns only if every slot it visits
    exists; it rewrites the first mother of those slots and nothing else. *)
Lemma tell_loop_spec m ks : ∀ r r',
  oloop (λ r' k, update_slot (SetFirstMother m) k r') ks r = Returns r' →
  GetEntries r' = GetEntries r ∧
  (∀ k, k ∈ ks → 0 ≤ k < GetEntries r) ∧
  ∀ j, GetParticle r' j =
       if decide (j ∈ ks) then SetFirstMother m <$> GetParticle r j
       else GetParticle r j.
Proof.
  induction ks as [|k ks IH]; intros r r'; cbn [oloop].
  - intros [= <-]. split_and!; [done|by intros k ?%elem_of_nil|]. intros j.
    case_decide as Hin; [by apply elem_of_nil in Hin|done].
  - intros (r1 & Hr1 & Hloop)%bind_Returns.
    destruct (IH _ _ Hloop) as (Hn & Hvalid & Hget).
    pose proof (GetEntries_update_slot _ _ _ _ Hr1) as Hn1.
    split_and!; [by rewrite Hn, Hn1| |].
    { intros k' [->|Hin]%elem_of_cons; [|rewrite <- Hn1; by apply Hvalid].
      apply update_slot_Returns in Hr1 as (p & Hp & _).
      apply GetParticle_is_Some. eauto. }
    intros j. rewrite Hget, (GetParticle_update_slot _ _ _ _ j Hr1).
    destruct (decide (j = k)) as [->|Hne].
    + rewrite (decide_True (P := k ∈ k :: ks)) by (by left).
      destruct (decide (k ∈ ks)); [|done]. by destruct (GetParticle r k).
    + destruct (decide (j ∈ ks)).
      * by rewrite (decide_True (P := j ∈ k :: ks)) by (by right).
      * rewrite (decide_False (P := j ∈ k :: ks)); [done|]. by intros [?|?]%elem_of_cons.
Qed.

Lemma tell_daughters_spec p m r r' :
  tell_daughters p m r = Returns r' →
  GetEntries r' = GetEntries r ∧
  (HasDaughters p = true → ∀ k, FirstDaughter p ≤ k ≤ LastDaughter p → 0 ≤ k < GetEntries r) ∧
  ∀ j, GetParticle r' j =
       if decide (HasDaughters p = true ∧ FirstDaughter p ≤ j ≤ LastDaughter p)
       then SetFirstMother m <$> GetParticle r j
       else GetParticle r j.
Proof.
  unfold tell_daughters. destruct (HasDaughters p).
  - intros (Hn & Hvalid & Hget)%tell_loop_spec. split_and!; [done| |].
    { intros _ k Hk. apply Hvalid, elem_of_seqZ. lia. }
    intros j. rewrite Hget.
    destruct (decide (j ∈ seqZ _ _)) as [Hin|Hnin]; rewrite elem_of_seqZ in *.
    + rewrite decide_True; [done|]. split; [done|lia].
    + rewrite decide_False; [done|]. intros [_ ?]. lia.
  - intros [= <-]. split_and!; [done|done|]. intros j.
    rewrite decide_False; [done|]. by intros [? _].
Qed.

Lemma deref_Returns {A} (o : option A) (a : A) : deref o = Returns a ↔ o = Some a.
Proof. destruct o; simpl; split; congruence. Qed.

Lemma SwapParticles_Returns r i j r' :
  i ≠ j → SwapParticles r i j = Returns r' →
  ∃ pi pj r3 pj',
    GetParticle r i = Some pi ∧ GetParticle r j = Some pj ∧
    tell_daughters pj j
      (set_slot (GHepParticle_Copy pi) j (set_slot (GHepParticle_Copy pj) i r))
      = Returns r3 ∧
    GetParticle r3 j = Some pj' ∧
    tell_daughters pj' i r3 = Returns r'.
Proof.
  intros Hne. unfold SwapParticles.
  destruct (negb _); [done|].
  destruct (Z.eqb_spec i j) as [?|_]; [done|].
  intros (pi & Hpi%deref_Returns & H)%bind_Returns.
  apply bind_Returns in H as (pj & Hpj%deref_Returns & H).
  assert (Hi : 0 ≤ i) by (apply GetParticle_Some in Hpi; lia).
  assert (Hj : 0 ≤ j) by (apply GetParticle_Some in Hpj; lia).
  cbv zeta in H.
  apply bind_Returns in H as (pi' & Hpi'%deref_Returns & H).
  apply bind_Returns in H as (r3 & Hr3 & H).
  apply bind_Returns in H as (pj' & Hpj'%deref_Returns & H).
  rewrite GetParticle_set_slot_ne in Hpi' by done.
  rewrite (GetParticle_set_slot_eq _ _ _ _ Hpi) in Hpi'. injection Hpi' as <-.
  exists pi, pj, r3, pj'. done.
Qed.

Lemma SwapParticles_tells_old_slot r i j r' pi :
  i ≠ j → GetParticle r i = Some pi → HasDaughters pi = true →
  SwapParticles r i j = Returns r' →
  (∃ pj', GetParticle r' j = Some pj' ∧ SetFirstMother 0 pj' = SetFirstMother 0 pi) ∧
  ∀ k, FirstDaughter pi ≤ k ≤ LastDaughter pi →
       FirstMother <$> GetParticle r' k = Some i.
Proof.
  intros Hne Hpi Hdau Hswap.
  destruct (SwapParticles_Returns _ _ _ _ Hne Hswap)
    as (pi0 & pj & r3 & pj' & Hpi0 & Hpj & Htell1 & Hpj' & Htell2).
  assert (pi0 = pi) as -> by congruence.
  assert (Hi : 0 ≤ i) by (apply GetParticle_Some in Hpi; lia).
  assert (Hj : 0 ≤ j) by (apply GetParticle_Some in Hpj; lia).
  apply tell_daughters_spec in Htell1 as (_ & _ & Hr3).
  assert (Hr2j : GetParticle
            (set_slot (GHepParticle_Copy pi) j (set_slot (GHepParticle_Copy pj) i r)) j
            = Some pi).
  { apply (GetParticle_set_slot_eq (GHepParticle_Copy pi) _ _ pj).
    by rewrite GetParticle_set_slot_ne. }
  assert (Hsame : SetFirstMother 0 pj' = SetFirstMother 0 pi).
  { rewrite Hr3, Hr2j in Hpj'.
    destruct (decide (HasDaughters pj = true ∧ FirstDaughter pj ≤ j ≤ LastDaughter pj));
      by injection Hpj' as <-. }
  assert (Hfd : FirstDaughter pj' = FirstDaughter pi)
    by exact (f_equal FirstDaughter Hsame).
  assert (Hld : LastDaughter pj' = LastDaughter pi)
    by exact (f_equal LastDaughter Hsame).
  assert (Hhd : HasDaughters pj' = true) by (unfold HasDaughters; by rewrite Hfd).
  apply tell_daughters_spec in Htell2 as (_ & Hvalid & Hr'). split.
  - rewrite Hr', Hpj'.
    destruct (decide (HasDaughters pj' = true ∧ FirstDaughter pj' ≤ j ≤ LastDaughter pj')).
    + exists (SetFirstMother i pj'). split; [reflexivity|exact Hsame].
    + exists pj'. split; [reflexivity|exact Hsame].
  - intros k Hk. rewrite Hr'. rewrite decide_True by (rewrite Hfd, Hld; done).
    assert (is_Some (GetParticle r3 k)) as [q Hq]; [|by rewrite Hq].
    apply GetParticle_is_Some, Hvalid; [done|]. by rewrite Hfd, Hld.
Qed.

Lemma SwapParticles_GetEntries r i j r' :
  SwapParticles r i j = Returns r' → GetEntries r' = GetEntries r.
Proof.
  destruct (decide (i = j)) as [->|Hne].
  - unfold SwapParticles. destruct (negb _); [done|].
    rewrite Z.eqb_refl. by intros [= <-].
  - intros (pi & pj & r3 & pj' & _ & _ & (Hn3 & _)%tell_daughters_spec & _
            & (Hn' & _)%tell_daughters_spec)%SwapParticles_Returns; [|done].
    by rewrite Hn', Hn3, !GetEntries_set_slot.
Qed.

(** The inner loop of [CompactifyDaughterLists] advances [start] and [ndau]
    together. *)
Lemma scan_loop_counts i ks : ∀ r start ndau r' start' ndau',
  oloop (scan_step i) ks (r, start, ndau) = Returns (r', start', ndau') →
  start' - ndau' = start - ndau ∧ ndau ≤ ndau' ∧ GetEntries r' = GetEntries r.
Proof.
  induction ks as [|k ks IH]; intros r start ndau r' start' ndau'; cbn [oloop].
  - intros [= <- <- <-]. split_and!; done || lia.
  - intros ([[r1 start1] ndau1] & Hstep & Hloop)%bind_Returns.
    apply IH in Hloop as (Hdiff & Hle & Hn).
    unfold scan_step in Hstep.
    apply bind_Returns in Hstep as (p & _ & Hstep).
    destruct (FirstMother p =? i).
    + apply bind_Returns in Hstep as (r2 & Hswap%SwapParticles_GetEntries & [= <- <- <-]).
      split_and!; [lia|lia|congruence].
    + injection Hstep as <- <- <-. split_and!; [lia|lia|done].
Qed.

(** Whatever the record, when the compactness check for [i] fails, phase 1
    writes for the entry at [i] the range from the old cursor to the new
    cursor, both included, as soon as the scan has moved a daughter. *)
Lemma compactify_entry_range n r start i r' start' :
  HasCompactDaughterList r i = false →
  compactify_entry n (r, start) i = Returns (r', start') →
  start ≤ start' ∧
  ∃ p, GetParticle r' i = Some p ∧
    (start' = start → FirstDaughter p = -1 ∧ LastDaughter p = -1) ∧
    (start < start' → FirstDaughter p = start ∧ LastDaughter p = start').
Proof.
  intros Hnc. unfold compactify_entry. rewrite Hnc. cbn [negb].
  intros ([[r1 start1] ndau] & (Hdiff & Hle & _)%scan_loop_counts & Hset)%bind_Returns.
  destruct (Z.ltb_spec 0 ndau) as [Hpos|Hzero].
  - apply bind_Returns in Hset as (r2 & Hr2 & Hset).
    apply bind_Returns in Hset as (r3 & Hr3 & [= <- <-]).
    pose proof (GetParticle_update_slot _ _ _ _ i Hr2) as H2.
    pose proof (GetParticle_update_slot _ _ _ _ i Hr3) as H3.
    rewrite decide_True in H2, H3 by done.
    apply update_slot_Returns in Hr2 as (p & Hp & _).
    rewrite Hp in H2. rewrite H2 in H3. simpl in H3.
    split; [lia|]. eexists. split; [exact H3|]. simpl. split; [lia|].
    intros _. split; [done|lia].
  - apply bind_Returns in Hset as (r2 & Hr2 & Hset).
    apply bind_Returns in Hset as (r3 & Hr3 & [= <- <-]).
    pose proof (GetParticle_update_slot _ _ _ _ i Hr2) as H2.
    pose proof (GetParticle_update_slot _ _ _ _ i Hr3) as H3.
    rewrite decide_True in H2, H3 by done.
    apply update_slot_Returns in Hr2 as (p & Hp & _).
    rewrite Hp in H2. rewrite H2 in H3. simpl in H3.
    split; [lia|]. eexists. split; [exact H3|]. simpl. split; [done|lia].
Qed.

(** ** The compactifier on the example records *)

(** Scenario B with arbitrary entries: the first in the initial state (or
    the target nucleon), the second past the initial state, no entry with
    daughters of its own. *)
Lemma scenario_B_any_entries (e0 e1 e2 e3 : GHepParticle) :
  FirstMother e0 = -1 → FirstMother e1 = 0 → FirstMother e2 = -1 → FirstMother e3 = 0 →
  FirstDaughter e0 = -1 → FirstDaughter e1 = -1 → FirstDaughter e3 = -1 →
  (Status e0 = kIStInitialState ∨ Status e0 = kIstNucleonTarget) →
  Status e1 ≠ kIStInitialState → Status e1 ≠ kIstNucleonTarget →
  let appended := with_particles empty_record
                    [with_range 1 3 e0; with_range (-1) (-1) e3;
                     with_range (-1) (-1) e2; with_range (-1) (-1) e1] in
  AddParticles empty_record [e0; e1; e2; e3] =
    Returns ([NoMother; ListWasEmpty; NoMother; RanCompactifier], appended) ∧
  ¬ daughter_ranges_exact appended.
Proof.
  destruct e0 as [g0 s0 m0 l0 d0 dd0 p0 x0], e1 as [g1 s1 m1 l1 d1 dd1 p1 x1],
           e2 as [g2 s2 m2 l2 d2 dd2 p2 x2], e3 as [g3 s3 m3 l3 d3 dd3 p3 x3].
  simpl. intros -> -> -> -> -> -> -> Hs0 Hs1 Hs1'. split.
  - destruct Hs0 as [->| ->]; destruct s1; try done; vm_compute; reflexivity.
  - intros Hinv.
    destruct (Hinv 0 _ eq_refl ltac:(done) 2) as [_ Hin].
    destruct Hin as (q & Hq & Hm); [done|].
    vm_compute in Hq. by injection Hq as <-.
Qed.

(** Two runs of the compactifier in a row on such entries. *)
Lemma scenario_B_twice_any_entries (e0 e1 e2 e3 : GHepParticle) :
  FirstMother e0 = -1 → FirstMother e1 = 0 → FirstMother e2 = -1 → FirstMother e3 = 0 →
  FirstDaughter e1 = -1 → FirstDaughter e3 = -1 →
  (Status e0 = kIStInitialState ∨ Status e0 = kIstNucleonTarget) →
  Status e1 ≠ kIStInitialState → Status e1 ≠ kIstNucleonTarget →
  Status e3 ≠ kIStInitialState → Status e3 ≠ kIstNucleonTarget →
  let once := with_particles empty_record
                [with_range 1 3 e0; with_range (-1) (-1) e3;
                 with_range (-1) (-1) e2; with_range (-1) (-1) e1] in
  let twice := with_particles empty_record
                 [with_range 1 3 e0; with_range (-1) (-1) e1;
                  with_range (-1) (-1) e2; with_range (-1) (-1) e3] in
  CompactifyDaughterLists
    (with_particles empty_record [with_range 1 1 e0; e1; e2; e3]) = Returns once ∧
  CompactifyDaughterLists once = Returns twice ∧
  (with_range (-1) (-1) e1 ≠ with_range (-1) (-1) e3 → twice ≠ once).
Proof.
  destruct e0 as [g0 s0 m0 l0 d0 dd0 p0 x0], e1 as [g1 s1 m1 l1 d1 dd1 p1 x1],
           e2 as [g2 s2 m2 l2 d2 dd2 p2 x2], e3 as [g3 s3 m3 l3 d3 dd3 p3 x3].
  simpl. intros -> -> -> -> -> -> Hs0 Hs1 Hs1' Hs3 Hs3'.
  split_and!.
  - destruct Hs0 as [->| ->]; destruct s1; try done; vm_compute; reflexivity.
  - destruct Hs0 as [->| ->]; destruct s3; try done; vm_compute; reflexivity.
  - intros Hne Heq. apply Hne.
    apply (f_equal (λ r, particles r !! 1%nat)) in Heq.
    simpl in Heq. injection Heq as -> -> -> -> ->. reflexivity.
Qed.

(** C1 (the code at a failing input).  The four appends of scenario B run
    the compactifier on the last append, and the record they leave breaks
    the invariant: the entry at 0 has the daughter range [1, 3], a window of
    three slots, and the unrelated entry (type code 22, no mother) still
    sits inside it at slot 2.  The same holds for every four entries with
    the mothers (-1, 0, -1, 0) and no daughters of their own, the first in
    the initial state and the second past it. *)
Theorem scenario_B_range_not_compact :
  (∀ e0 e1 e2 e3 : GHepParticle,
     FirstMother e0 = -1 → FirstMother e1 = 0 →
     FirstMother e2 = -1 → FirstMother e3 = 0 →
     FirstDaughter e0 = -1 → FirstDaughter e1 = -1 → FirstDaughter e3 = -1 →
     (Status e0 = kIStInitialState ∨ Status e0 = kIstNucleonTarget) →
     Status e1 ≠ kIStInitialState → Status e1 ≠ kIstNucleonTarget →
     let appended := with_particles empty_record
                       [with_range 1 3 e0; with_range (-1) (-1) e3;
                        with_range (-1) (-1) e2; with_range (-1) (-1) e1] in
     AddParticles empty_record [e0; e1; e2; e3] =
       Returns ([NoMother; ListWasEmpty; NoMother; RanCompactifier], appended) ∧
     ¬ daughter_ranges_exact appended) ∧
  AddParticles empty_record scenario_B =
    Returns ([NoMother; ListWasEmpty; NoMother; RanCompactifier], scenario_B_appended) ∧
  GetParticle scenario_B_appended 0 = Some (with_range 1 3 (entry 14 kIStInitialState (-1))) ∧
  GetParticle scenario_B_appended 2 = Some (entry 22 kIStStableFinalState (-1)) ∧
  ¬ daughter_ranges_exact scenario_B_appended.
Proof.
  split; [exact scenario_B_any_entries|].
  split_and!; [by vm_compute..|].
  intros Hinv.
  destruct (Hinv 0 (with_range 1 3 (entry 14 kIStInitialState (-1)))
              eq_refl ltac:(done) 2) as [_ Hin].
  destruct Hin as (q & Hq & Hm); [done|].
  vm_compute in Hq. by injection Hq as <-.
Qed.

(** C4 (the code at a failing input).  On the record of scenario B the
    first run of the compactifier leaves the type codes 14, 211, 22, 13 and
    a second run, with no append in between, leaves 14, 13, 22, 211: the two
    daughters of the entry at 0 change places again.  The same holds for
    every four entries of that shape: the second run undoes the exchange of
    the first, so the layouts differ whenever the two daughters do. *)
Theorem compactifier_not_idempotent :
  (∀ e0 e1 e2 e3 : GHepParticle,
     FirstMother e0 = -1 → FirstMother e1 = 0 →
     FirstMother e2 = -1 → FirstMother e3 = 0 →
     FirstDaughter e1 = -1 → FirstDaughter e3 = -1 →
     (Status e0 = kIStInitialState ∨ Status e0 = kIstNucleonTarget) →
     Status e1 ≠ kIStInitialState → Status e1 ≠ kIstNucleonTarget →
     Status e3 ≠ kIStInitialState → Status e3 ≠ kIstNucleonTarget →
     let once := with_particles empty_record
                   [with_range 1 3 e0; with_range (-1) (-1) e3;
                    with_range (-1) (-1) e2; with_range (-1) (-1) e1] in
     let twice := with_particles empty_record
                    [with_range 1 3 e0; with_range (-1) (-1) e1;
                     with_range (-1) (-1) e2; with_range (-1) (-1) e3] in
     CompactifyDaughterLists
       (with_particles empty_record [with_range 1 1 e0; e1; e2; e3]) = Returns once ∧
     CompactifyDaughterLists once = Returns twice ∧
     (with_range (-1) (-1) e1 ≠ with_range (-1) (-1) e3 → twice ≠ once)) ∧
  CompactifyDaughterLists (before_compaction scenario_B) = Returns scenario_B_appended ∧
  CompactifyDaughterLists scenario_B_appended = Returns scenario_B_recompacted ∧
  PdgCode <$> GetParticle scenario_B_appended 1 = Some 211 ∧
  PdgCode <$> GetParticle scenario_B_recompacted 1 = Some 13 ∧
  scenario_B_recompacted ≠ scenario_B_appended.
Proof.
  split; [exact scenario_B_twice_any_entries|].
  split_and!; [by vm_compute..|].
  intros Heq. apply (f_equal (λ r, PdgCode <$> GetParticle r 1)) in Heq.
  vm_compute in Heq. done.
Qed.

(** C2 (the code at a failing input).  In the decay chain the entry at 2
    (type code 22) is the daughter of the entry at 1 (type code 111).
    [SwapParticles(1,3)] exchanges the full contents of the slots 1 and 3,
    but the daughter at 2 keeps the first mother 1, the slot that now holds
    the unrelated entry (type code 211), instead of 3: the swap contract
    does not hold.  The fourth append of the chain performs this very swap
    and leaves the entry 211 with the daughter range [2, 2].  On every
    record: once [SwapParticles(i,j)] has moved an entry with daughters from
    the slot [i] to the slot [j], every slot in the daughter range of that
    entry names [i] as first mother, the slot the mother has left. *)
Theorem SwapParticles_stale_mother :
  (∀ r i j r' pi,
     i ≠ j → GetParticle r i = Some pi → HasDaughters pi = true →
     SwapParticles r i j = Returns r' →
     (∃ pj', GetParticle r' j = Some pj' ∧ SetFirstMother 0 pj' = SetFirstMother 0 pi) ∧
     ∀ k, FirstDaughter pi ≤ k ≤ LastDaughter pi →
          FirstMother <$> GetParticle r' k = Some i) ∧
  before_compaction scenario_chain = chain_before ∧
  SwapParticles chain_before 1 3 = Returns chain_swapped ∧
  GetParticle chain_swapped 1 = GetParticle chain_before 3 ∧
  GetParticle chain_swapped 3 = GetParticle chain_before 1 ∧
  FirstMother <$> GetParticle chain_before 2 = Some 1 ∧
  FirstMother <$> GetParticle chain_swapped 2 = Some 1 ∧
  ¬ swap_contract chain_before 1 3 chain_swapped ∧
  AddParticles empty_record scenario_chain =
    Returns ([NoMother; ListWasEmpty; ListWasEmpty; RanCompactifier],
             with_particles empty_record
               [with_range 1 3 (entry 14 kIStInitialState (-1));
                with_range 2 2 (entry 211 kIStStableFinalState 0);
                entry 22 kIStStableFinalState 1;
                entry 111 kIStDecayedState 0]).
Proof.
  split; [exact SwapParticles_tells_old_slot|].
  split_and!; try by vm_compute.
  intros Hc. specialize (Hc 2 (entry 22 kIStStableFinalState 1) eq_refl).
  vm_compute in Hc. done.
Qed.

(** C3 (the code at two failing inputs).  Phase 1 for the position 0, with
    the cursor at 1.
    - On [scenario_gap] the scan moves two daughters (count 2) and leaves the
      cursor at 3; the range written for the entry at 0 is [1, 3], one slot
      more than [cursor - count, cursor - 1] = [1, 2].
    - On scenario B the slot at the cursor holds a daughter of 0 (type code
      13); the scan starts one slot later, counts one daughter only and moves
      the daughter at the cursor away to slot 3.
    On every record on which the compactness check for [i] fails, the range
    written for the entry at [i] runs from the old cursor to the new cursor,
    both included, as soon as the scan has moved a daughter, and is (-1,-1)
    when it has moved none. *)
Theorem phase1_scan_off_by_one :
  (∀ n r start i r' start',
     HasCompactDaughterList r i = false →
     compactify_entry n (r, start) i = Returns (r', start') →
     start ≤ start' ∧
     ∃ p, GetParticle r' i = Some p ∧
       (start' = start → FirstDaughter p = -1 ∧ LastDaughter p = -1) ∧
       (start < start' → FirstDaughter p = start ∧ LastDaughter p = start')) ∧
  before_compaction scenario_gap = gap_before ∧
  FirstNonInitStateEntry gap_before = 1 ∧
  HasCompactDaughterList gap_before 0 = false ∧
  oloop (scan_step 0) (seqZ 2 3) (gap_before, 1, 0) = Returns (gap_scanned 2 2, 3, 2) ∧
  compactify_entry 5 (gap_before, 1) 0 = Returns (gap_scanned 1 3, 3) ∧
  FirstNonInitStateEntry (before_compaction scenario_B) = 1 ∧
  HasCompactDaughterList (before_compaction scenario_B) 0 = false ∧
  is_daughter_of (before_compaction scenario_B) 0 1 ∧
  compactify_entry 4 (before_compaction scenario_B, 1) 0 = Returns (gap_free_B 1 2, 2).
Proof.
  split; [exact compactify_entry_range|].
  split_and!; try by vm_compute.
  exists (entry 13 kIStStableFinalState 0). by vm_compute.
Qed.

(** ** Lookups that find nothing *)

Lemma first_match_none ps test idxs :
  (∀ i, i ∈ idxs → ∃ p, at_slot ps i = Some p ∧ test p = false) →
  first_match ps test idxs = Returns None.
Proof.
  induction idxs as [|i idxs IH]; intros Hall; simpl; [done|].
  destruct (Hall i) as (p & -> & Hp); [by left|]. simpl. rewrite Hp.
  apply IH. intros j Hj. apply Hall. by right.
Qed.

Lemma first_match_from_none r test start :
  0 ≤ start →
  (∀ i p, start ≤ i → GetParticle r i = Some p → test p = false) →
  first_match (particles r) test (positions_from r start) = Returns None.
Proof.
  intros Hstart Hno. apply first_match_none.
  intros i [Hlo Hhi]%elem_of_seqZ.
  destruct (GetParticle_is_Some r i) as [_ [p Hp]]; [lia|].
  exists p. split; [|by eapply Hno].
  unfold GetParticle in Hp. by destruct (_ && _).
Qed.

(** C9, as the code has it.  A lookup that finds nothing returns the null
    pointer or -1 and does not end the execution:
    - [GetParticle] at a position that is negative or at least
      [GetEntries()];
    - [FindParticle] and both [ParticlePosition] when no entry from a
      non-negative [start] on matches;
    - [GetInteraction] on a record without summary.
    The lookups are const member functions: they yield a value and leave the
    record as it is. *)
Theorem lookups_not_found_return_sentinel :
  (∀ r position, position < 0 ∨ GetEntries r ≤ position →
     GetParticle r position = None) ∧
  (∀ r pdg status start, 0 ≤ start →
     (∀ i p, start ≤ i → GetParticle r i = Some p →
        ¬ (Status p = status ∧ PdgCode p = pdg)) →
     FindParticle r pdg status start = Returns None ∧
     ParticlePosition r pdg status start = Returns (-1)) ∧
  (∀ Compare r particle start, 0 ≤ start →
     (∀ i p, start ≤ i → GetParticle r i = Some p → Compare p particle = false) →
     ParticlePosition_ptr Compare r particle start = Returns (-1)) ∧
  (∀ r, fInteraction r = None → GetInteraction r = None).
Proof.
  split_and!.
  - intros r position H. by apply GetParticle_None.
  - intros r pdg status start Hstart Hno.
    unfold FindParticle, ParticlePosition.
    rewrite first_match_from_none; [done..|].
    intros i p Hi Hp. specialize (Hno i p Hi Hp).
    apply andb_false_iff. rewrite bool_decide_eq_false, Z.eqb_neq.
    destruct (decide (Status p = status)); [right|left]; tauto.
  - intros Compare r particle start Hstart Hno.
    unfold ParticlePosition_ptr. by rewrite first_match_from_none.
  - intros r H. exact H.
Qed.

(** C9 as stated fails for a negative [start]: the loop reads the array at
    the position -1, gets the null pointer and dereferences it. *)
Lemma FindParticle_negative_start_aborts :
  let r := with_particles empty_record scenario_A in
  (∀ i p, GetParticle r i = Some p →
     ¬ (Status p = kIStStableFinalState ∧ PdgCode p = 2212)) ∧
  FindParticle r 2212 kIStStableFinalState (-1) = Aborts ∧
  ParticlePosition r 2212 kIStStableFinalState (-1) = Aborts.
Proof.
  split_and!; [|by vm_compute..].
  intros i p [Hi Hp]%GetParticle_Some [_ Hpdg].
  destruct (Z.to_nat i) as [|[|[|n]]]; simpl in Hp; simplify_eq; done.
Qed.

(** ** Copying a record *)

Section CopyProperties.
Context {Interaction : Type}.
Implicit Types (h : gmap addr Interaction) (this record : GHepRecord).

Lemma copy_entries_particles this ps :
  particles (foldl (λ t p, with_particles t (particles t ++ [GHepParticle_copy p]))
                   this ps) = particles this ++ ps.
Proof.
  revert this. induction ps as [|p ps IH]; intros this; simpl.
  - by rewrite app_nil_r.
  - rewrite IH. simpl. by rewrite <- app_assoc.
Qed.

Lemma ResetGHepRecord_Returns this h :
  (∀ b, fInteraction this = Some b → is_Some (h !! b)) →
  ResetGHepRecord this h =
  Returns (mkGHepRecord [] None false false false, heap_after_reset this h).
Proof.
  intros Hlive. unfold ResetGHepRecord, CleanUpGHepRecord, heap_after_reset.
  destruct (fInteraction this) as [b|]; simpl; [|done].
  unfold delete_Interaction. by destruct (Hlive b eq_refl) as [i ->].
Qed.

Lemma Copy_Returns this record h a i :
  (∀ b, fInteraction this = Some b → is_Some (h !! b)) →
  fInteraction record = Some a →
  heap_after_reset this h !! a = Some i →
  Copy this record h =
  Returns (mkGHepRecord (particles record)
             (Some (fresh (dom (heap_after_reset this h))))
             (fIsPauliBlocked record) (fIsBelowThrNRF record) (fGenericErrFlag record),
           <[fresh (dom (heap_after_reset this h)) := i]> (heap_after_reset this h)).
Proof.
  intros Hlive Ha Hi. unfold Copy. rewrite ResetGHepRecord_Returns by done. simpl.
  rewrite Ha. simpl. rewrite Hi. simpl. by rewrite copy_entries_particles.
Qed.

Lemma Copy_no_summary this record h :
  fInteraction record = None → Copy this record h = Aborts.
Proof.
  intros Hnone. unfold Copy.
  destruct (ResetGHepRecord this h) as [[this' h']|]; simpl; [|done].
  by rewrite Hnone.
Qed.

(** C7, as the code has it.  For a source record whose summary is attached
    and live, and a destination whose own summary (if any) is live and is
    another object, [Copy] returns.  It resets the destination (its old
    entries are gone and its old summary is deleted), and afterwards the
    destination has as many entries as the source, every entry agrees
    with the source entry at the same position on type code, role tag,
    mother and daughter ranges, momentum and position, the three flags
    are those of the source, and the destination's summary is a clone at
    a fresh address: equal to the source's summary, which is still in
    place at its own address. *)
Theorem Copy_round_trip this record h a i :
  fInteraction record = Some a →
  h !! a = Some i →
  (∀ b, fInteraction this = Some b → b ≠ a ∧ is_Some (h !! b)) →
  ∃ this' h' a',
    Copy this record h = Returns (this', h') ∧
    GetEntries this' = GetEntries record ∧
    (∀ k p, GetParticle record k = Some p →
       ∃ p', GetParticle this' k = Some p' ∧
         PdgCode p' = PdgCode p ∧ Status p' = Status p ∧
         FirstMother p' = FirstMother p ∧ LastMother p' = LastMother p ∧
         FirstDaughter p' = FirstDaughter p ∧ LastDaughter p' = LastDaughter p ∧
         P4 p' = P4 p ∧ X4 p' = X4 p) ∧
    fIsPauliBlocked this' = fIsPauliBlocked record ∧
    fIsBelowThrNRF this' = fIsBelowThrNRF record ∧
    fGenericErrFlag this' = fGenericErrFlag record ∧
    fInteraction this' = Some a' ∧ a' ≠ a ∧
    h' !! a' = Some i ∧ h' !! a = Some i ∧
    (∀ b, fInteraction this = Some b → b ≠ a' → h' !! b = None) ∧
    (∀ c, c ≠ a' → fInteraction this ≠ Some c → h' !! c = h !! c).
Proof.
  intros Ha Hi Hthis.
  set (h1 := heap_after_reset this h).
  assert (Hi1 : h1 !! a = Some i).
  { unfold h1, heap_after_reset. destruct (fInteraction this) as [b|] eqn:Hb; [|done].
    destruct (Hthis b eq_refl) as [Hne _]. by rewrite lookup_delete_ne. }
  assert (Hfresh : h1 !! fresh (dom h1) = None).
  { apply not_elem_of_dom, is_fresh. }
  exists (mkGHepRecord (particles record) (Some (fresh (dom h1)))
            (fIsPauliBlocked record) (fIsBelowThrNRF record) (fGenericErrFlag record)),
         (<[fresh (dom h1) := i]> h1), (fresh (dom h1)).
  assert (Hne : fresh (dom h1) ≠ a) by congruence.
  split_and!; try done.
  - apply (Copy_Returns _ _ _ a); [|done..]. intros b Hb. by destruct (Hthis b Hb).
  - intros k p Hp. by exists p.
  - apply lookup_insert_eq.
  - by rewrite lookup_insert_ne.
  - intros b Hb Hne'. rewrite lookup_insert_ne by done.
    unfold h1, heap_after_reset. rewrite Hb. apply lookup_delete_eq.
  - intros c Hc Hnc. rewrite lookup_insert_ne by done.
    unfold h1, heap_after_reset. destruct (fInteraction this) as [b|]; [|done].
    apply lookup_delete_ne. congruence.
Qed.

(** C10.  [Copy] dereferences the summary pointer of the source without a
    null test: whenever it returns, the source had a summary attached, and
    on a source without summary it ends the execution, whatever the
    destination.  Such a source is a valid record all the same: it is what
    [InitGHepRecord] produces, [GetInteraction] answers null on it, and
    [ResetGHepRecord] runs on it and leaves the heap as it is. *)
Theorem Copy_requires_summary this record h :
  (∀ out, Copy this record h = Returns out →
     ∃ a, fInteraction record = Some a) ∧
  (fInteraction record = None →
     Copy this record h = Aborts ∧
     GetInteraction record = None ∧
     ResetGHepRecord record h = Returns (mkGHepRecord [] None false false false, h)) ∧
  fInteraction (InitGHepRecord record) = None.
Proof.
  split_and!.
  - intros out Hout. destruct (fInteraction record) as [a|] eqn:Ha; [eauto|].
    by rewrite Copy_no_summary in Hout.
  - intros Hnone. split_and!.
    + by apply Copy_no_summary.
    + exact Hnone.
    + rewrite ResetGHepRecord_Returns; [|by rewrite Hnone].
      unfold heap_after_reset. by rewrite Hnone.
  - done.
Qed.
End CopyProperties.

(** ** The theorems at concrete records *)

(** The third append of scenario A takes the "just after" path. *)
Lemma UpdateDaughterLists_cases_witness :
  GetParticle scenario_A_placed (GetEntries scenario_A_placed - 1)
    = Some (entry 211 kIStStableFinalState 0) ∧
  UpdateDaughterLists scenario_A_placed =
    Returns (AddedJustAfter,
             with_slot scenario_A_placed 0
               (SetLastDaughter 2 (with_range 1 1 (entry 14 kIStInitialState (-1))))).
Proof.
  split; [reflexivity|].
  destruct (proj1 UpdateDaughterLists_cases scenario_A_placed
              (entry 211 kIStStableFinalState 0) eq_refl) as (_ & _ & Hmom).
  destruct (Hmom (with_range 1 1 (entry 14 kIStInitialState (-1))))
    as (_ & _ & Hafter & _); [vm_compute; lia | reflexivity |].
  apply Hafter; vm_compute; [lia | lia | reflexivity].
Defined.

(** The derivation pass on scenario B, after phase 1 has written the range
    [1, 2] for the entry at 0. *)
Lemma Compactify_derivation_pass_witness :
  CompactifyPhase1 (before_compaction scenario_B) = Returns (gap_free_B 1 2) ∧
  ∃ r', CompactifyDaughterLists (before_compaction scenario_B) = Returns r' ∧
    r' = FinalizeDaughterLists (gap_free_B 1 2) ∧
    GetEntries r' = GetEntries (gap_free_B 1 2) ∧
    ∀ i p, GetParticle (gap_free_B 1 2) i = Some p →
      ∃ dau1 dau2,
        GetParticle r' i = Some (SetLastDaughter dau2 (SetFirstDaughter dau1 p)) ∧
        ((∀ k, ¬ is_daughter_of r' i k) → dau1 = -1 ∧ dau2 = -1) ∧
        (∀ k, is_daughter_of r' i k →
           is_daughter_of r' i dau1 ∧ is_daughter_of r' i dau2 ∧ dau1 ≤ k ≤ dau2).
Proof.
  split; [vm_compute; reflexivity|].
  apply Compactify_derivation_pass. vm_compute; reflexivity.
Defined.

(** Scenario A holds no proton: the lookups from the position 0 on and the
    read at the position 3 find nothing. *)
Lemma lookups_not_found_witness :
  let r := with_particles empty_record scenario_A in
  GetParticle r 3 = None ∧
  FindParticle r 2212 kIStStableFinalState 0 = Returns None ∧
  ParticlePosition r 2212 kIStStableFinalState 0 = Returns (-1).
Proof.
  intros r.
  destruct lookups_not_found_return_sentinel as (Hget & Hfind & _ & _).
  split; [apply Hget; right; vm_compute; discriminate|].
  apply Hfind; [lia|].
  intros i p _ [Hi Hp]%GetParticle_Some [_ Hpdg].
  destruct (Z.to_nat i) as [|[|[|n]]]; simpl in Hp; simplify_eq; done.
Defined.

(** Copying scenario A, with a summary attached and the Pauli-blocking flag
    set, into the empty record. *)
Lemma Copy_round_trip_witness :
  fInteraction scenario_A_with_summary = Some 1%positive ∧
  one_summary !! 1%positive = Some 42 ∧
  ∃ this' h' a',
    Copy empty_record scenario_A_with_summary one_summary = Returns (this', h') ∧
    GetEntries this' = 3 ∧
    fIsPauliBlocked this' = true ∧
    fInteraction this' = Some a' ∧ a' ≠ 1%positive ∧
    h' !! a' = Some 42 ∧ h' !! 1%positive = Some 42.
Proof.
  split; [reflexivity|]. split; [apply lookup_singleton_eq|].
  destruct (Copy_round_trip empty_record scenario_A_with_summary one_summary
              1%positive 42 eq_refl (lookup_singleton_eq _ _))
    as (this' & h' & a' & Hcopy & Hn & _ & Hf & _ & _ & Ha' & Hne & Hh' & Hh & _).
  { intros b Hb. discriminate Hb. }
  exists this', h', a'. split_and!; done.
Defined.

(** C7 as stated fails for a source without summary: [Copy] dereferences
    the null pointer. *)
Lemma Copy_without_summary_aborts :
  fInteraction scenario_A_placed = None ∧
  Copy empty_record scenario_A_placed one_summary = Aborts.
Proof.
  split; [reflexivity|]. by apply Copy_no_summary.
Qed.

(** Scenario A without summary cannot be copied, yet [GetInteraction]
    answers on it. *)
Lemma Copy_requires_summary_witness :
  fInteraction scenario_A_placed = None ∧
  Copy scenario_A_with_summary scenario_A_placed one_summary = Aborts ∧
  GetInteraction scenario_A_placed = None.
Proof.
  split; [reflexivity|].
  destruct (Copy_requires_summary scenario_A_with_summary scenario_A_placed one_summary)
    as (_ & Hnone & _).
  destruct (Hnone eq_refl) as (Hcopy & Hget & _). by split.
Defined.

(** ** Lookups that find an entry *)

Lemma first_match_at_slot ps test idxs i p :
  first_match ps test idxs = Returns (Some (i, p)) →
  i ∈ idxs ∧ at_slot ps i = Some p ∧ test p = true.
Proof.
  induction idxs as [|k idxs IH]; cbn [first_match]; [done|].
  intros (q & Hq%deref_Returns & H)%bind_Returns.
  destruct (test q) eqn:Htest.
  - injection H as <- <-. split; [by left|done].
  - destruct (IH H) as (Hin & Hs & Ht). split; [by right|done].
Qed.

Lemma at_slot_GetParticle r i : at_slot (particles r) i = GetParticle r i.
Proof.
  unfold GetParticle, at_slot, GetEntries. by destruct (_ && _).
Qed.

(** The scan of [seqZ start len] inside the array: it returns, with the
    first slot that passes the test, or with nothing when no slot does. *)
Lemma first_match_seqZ ps test (len : nat) : ∀ start,
  0 ≤ start → start + Z.of_nat len ≤ Z.of_nat (length ps) →
  ∃ m, first_match ps test (seqZ start (Z.of_nat len)) = Returns m ∧
    match m with
    | None => ∀ i p, start ≤ i < start + Z.of_nat len → at_slot ps i = Some p → test p = false
    | Some (pos, q) =>
        start ≤ pos < start + Z.of_nat len ∧ at_slot ps pos = Some q ∧ test q = true ∧
        ∀ i p, start ≤ i < pos → at_slot ps i = Some p → test p = false
    end.
Proof.
  induction len as [|len IH]; intros start Hstart Hlen.
  - exists None. split; [done|]. intros i p Hi. lia.
  - rewrite seqZ_cons by lia. cbn [first_match].
    assert (is_Some (at_slot ps start)) as [q Hq].
    { unfold at_slot. destruct (Z.leb_spec 0 start); [|lia].
      destruct (Z.ltb_spec start (Z.of_nat (length ps))); [|lia]. simpl.
      apply lookup_lt_is_Some. lia. }
    rewrite Hq. simpl. destruct (test q) eqn:Htest.
    + exists (Some (start, q)). split; [done|]. split_and!; [lia|lia|done|done|].
      intros i p Hi. lia.
    + replace (Z.pred (Z.of_nat (S len))) with (Z.of_nat len) by lia.
      destruct (IH (Z.succ start)) as (m & -> & Hm); [lia|lia|].
      exists m. split; [done|]. destruct m as [[pos q']|].
      * destruct Hm as (Hpos & Hq' & Ht & Hbefore). split_and!; [lia|lia|done|done|].
        intros i p Hi Hp. destruct (decide (i = start)) as [->|Hne].
        -- congruence.
        -- apply (Hbefore i p); [lia|done].
      * intros i p Hi Hp. destruct (decide (i = start)) as [->|Hne].
        -- congruence.
        -- apply (Hm i p); [lia|done].
Qed.

Lemma matches_test pdg status p :
  bool_decide (Status p = status) && (PdgCode p =? pdg) = true ↔ matches pdg status p.
Proof.
  unfold matches. rewrite andb_true_iff, bool_decide_eq_true, Z.eqb_eq. done.
Qed.

(** X1.  From a start position that is not negative, [ParticlePosition]
    returns, and what it returns is either -1, when no entry from the start
    position on has the wanted type code and role, or the position of the
    first such entry at or after the start position. *)
Theorem ParticlePosition_first_match (r : GHepRecord) (pdg : Z)
    (status : GHepStatus_t) (start : Z) :
  0 ≤ start →
  ∃ pos, ParticlePosition r pdg status start = Returns pos ∧
    ((pos = -1 ∧
      ∀ i p, start ≤ i → GetParticle r i = Some p → ¬ matches pdg status p) ∨
     (start ≤ pos < GetEntries r ∧
      (∃ p, GetParticle r pos = Some p ∧ matches pdg status p) ∧
      ∀ i p, start ≤ i < pos → GetParticle r i = Some p → ¬ matches pdg status p)).
Proof.
  intros Hstart. unfold ParticlePosition, positions_from, GetEntries.
  set (test := λ p, bool_decide (Status p = status) && (PdgCode p =? pdg)).
  set (n := Z.of_nat (length (particles r))).
  destruct (decide (start ≤ n)) as [Hle|Hgt].
  - destruct (first_match_seqZ (particles r) test (Z.to_nat (n - start)) start)
      as (m & Hm & Hspec); [done|lia|].
    rewrite Z2Nat.id in Hm, Hspec by lia. rewrite Hm. simpl.
    destruct m as [[pos q]|].
    + exists pos. split; [done|]. right.
      destruct Hspec as (Hpos & Hq & Ht & Hbefore). split_and!; [lia|fold n; lia| |].
      * exists q. rewrite <- at_slot_GetParticle. split; [done|]. by apply matches_test.
      * intros i p Hi Hp Hmatch. rewrite <- at_slot_GetParticle in Hp.
        assert (test p = true) as Ht' by (by apply matches_test).
        rewrite (Hbefore i p Hi Hp) in Ht'. done.
    + exists (-1). split; [done|]. left. split; [done|].
      intros i p Hi Hp Hmatch.
      assert (is_Some (GetParticle r i)) as Hin%GetParticle_is_Some by eauto.
      unfold GetEntries in Hin. fold n in Hin.
      rewrite <- at_slot_GetParticle in Hp.
      assert (test p = true) as Ht' by (by apply matches_test).
      rewrite (Hspec i p) in Ht'; [done|lia|done].
  - rewrite seqZ_nil by lia. simpl. exists (-1). split; [done|]. left. split; [done|].
    intros i p Hi Hp.
    assert (is_Some (GetParticle r i)) as Hin%GetParticle_is_Some by eauto.
    unfold GetEntries in Hin. fold n in Hin. lia.
Qed.

Lemma ParticlePosition_first_match_witness :
  0 ≤ 1 ∧
  ∃ pos, ParticlePosition scenario_A_unlinked 211 kIStStableFinalState 1 = Returns pos ∧
    pos = 2 ∧
    ∀ i p, 1 ≤ i < pos → GetParticle scenario_A_unlinked i = Some p →
           ¬ matches 211 kIStStableFinalState p.
Proof.
  split; [lia|].
  destruct (ParticlePosition_first_match scenario_A_unlinked 211 kIStStableFinalState 1)
    as (pos & Hpos & Hcase); [lia|].
  exists pos. split; [done|].
  assert (pos = 2) as Heq by (vm_compute in Hpos; congruence).
  split; [done|]. destruct Hcase as [[-> _]|(_ & _ & Hbefore)]; [lia|done].
Defined.

(** X2.  [FindParticle] and [ParticlePosition] agree for every start
    position: [FindParticle] returns the entry at the position
    [ParticlePosition] returns (no entry for -1), and aborts exactly when
    [ParticlePosition] does. *)
Theorem FindParticle_is_GetParticle_at_ParticlePosition (r : GHepRecord)
    (pdg : Z) (status : GHepStatus_t) (start : Z) :
  FindParticle r pdg status start =
  (pos ← ParticlePosition r pdg status start; Returns (GetParticle r pos)).
Proof.
  unfold FindParticle, ParticlePosition.
  destruct (first_match _ _ _) as [[[i p]|]|] eqn:Hm; simpl; [| |done].
  - apply first_match_at_slot in Hm as (_ & Hp & _).
    by rewrite <- at_slot_GetParticle, Hp.
  - done.
Qed.

(** ** The first entry past the initial state *)

Lemma first_non_init_spec ps : ∀ pos0,
  let pos := first_non_init ps pos0 in
  pos0 ≤ pos ≤ pos0 + Z.of_nat (length ps) ∧
  (∀ j p, (Z.of_nat j < pos - pos0) → ps !! j = Some p → is_init_state p) ∧
  (pos < pos0 + Z.of_nat (length ps) →
     ∃ p, ps !! Z.to_nat (pos - pos0) = Some p ∧ ¬ is_init_state p).
Proof.
  induction ps as [|q ps IH]; intros pos0; cbn [first_non_init length].
  - split_and!; [lia|lia| |lia]. intros j p _ Hp. done.
  - destruct (decide (Status q = kIStInitialState)) as [Hi|Hi];
      [|destruct (decide (Status q = kIstNucleonTarget)) as [Ht|Ht]].
    + rewrite (bool_decide_eq_false_2 (Status q ≠ kIStInitialState)) by tauto.
      cbn [andb]. destruct (IH (pos0 + 1)) as (Hb & Hbefore & Hat).
      split_and!; [lia|lia| |].
      * intros [|j] p Hj Hp; [injection Hp as <-; by left|].
        apply (Hbefore j p); [lia|done].
      * intros Hlt. destruct Hat as (p & Hp & Hnp); [lia|]. exists p. split; [|done].
        replace (Z.to_nat (first_non_init ps (pos0 + 1) - pos0))
          with (S (Z.to_nat (first_non_init ps (pos0 + 1) - (pos0 + 1)))) by lia.
        done.
    + rewrite (bool_decide_eq_true_2 (Status q ≠ kIStInitialState)) by done.
      rewrite (bool_decide_eq_false_2 (Status q ≠ kIstNucleonTarget)) by tauto.
      cbn [andb]. destruct (IH (pos0 + 1)) as (Hb & Hbefore & Hat).
      split_and!; [lia|lia| |].
      * intros [|j] p Hj Hp; [injection Hp as <-; by right|].
        apply (Hbefore j p); [lia|done].
      * intros Hlt. destruct Hat as (p & Hp & Hnp); [lia|]. exists p. split; [|done].
        replace (Z.to_nat (first_non_init ps (pos0 + 1) - pos0))
          with (S (Z.to_nat (first_non_init ps (pos0 + 1) - (pos0 + 1)))) by lia.
        done.
    + rewrite (bool_decide_eq_true_2 (Status q ≠ kIStInitialState)) by done.
      rewrite (bool_decide_eq_true_2 (Status q ≠ kIstNucleonTarget)) by done.
      cbn [andb]. split_and!; [lia|lia| |].
      * intros j p Hj. lia.
      * intros _. exists q. rewrite Z.sub_diag. split; [done|]. by intros [?|?].
Qed.

(** X3.  [FirstNonInitStateEntry] returns a position between 0 and
    [GetEntries()]: every entry before it is in the initial state or is the
    target nucleon, and the entry at it, when there is one, is neither.  It
    returns [GetEntries()] exactly when every entry is in the initial
    state. *)
Theorem FirstNonInitStateEntry_spec (r : GHepRecord) :
  0 ≤ FirstNonInitStateEntry r ≤ GetEntries r ∧
  (∀ i p, 0 ≤ i < FirstNonInitStateEntry r → GetParticle r i = Some p →
     is_init_state p) ∧
  (FirstNonInitStateEntry r < GetEntries r →
     ∃ p, GetParticle r (FirstNonInitStateEntry r) = Some p ∧ ¬ is_init_state p) ∧
  (FirstNonInitStateEntry r = GetEntries r ↔
     ∀ i p, GetParticle r i = Some p → is_init_state p).
Proof.
  unfold FirstNonInitStateEntry, GetEntries.
  destruct (first_non_init_spec (particles r) 0) as (Hb & Hbefore & Hat).
  rewrite Z.sub_0_r in *. rewrite Z.add_0_l in *.
  assert (Hbefore' : ∀ i p, 0 ≤ i < first_non_init (particles r) 0 →
            GetParticle r i = Some p → is_init_state p).
  { intros i p Hi [_ Hp]%GetParticle_Some. apply (Hbefore (Z.to_nat i) p); [lia|done]. }
  assert (Hat' : first_non_init (particles r) 0 < Z.of_nat (length (particles r)) →
            ∃ p, GetParticle r (first_non_init (particles r) 0) = Some p ∧ ¬ is_init_state p).
  { intros Hlt. destruct (Hat Hlt) as (p & Hp & Hnp). exists p. split; [|done].
    apply GetParticle_Some. split; [lia|done]. }
  split_and!; [lia|lia|done|done|]. split.
  - intros Heq i p Hp. apply (Hbefore' i p); [|done].
    assert (is_Some (GetParticle r i)) as Hi%GetParticle_is_Some by eauto.
    unfold GetEntries in Hi. lia.
  - intros Hall. destruct (decide (first_non_init (particles r) 0
                                   = Z.of_nat (length (particles r)))) as [|Hne]; [done|].
    destruct Hat' as (p & Hp & Hnp); [lia|]. destruct Hnp. by eapply Hall.
Qed.

(** ** Compact daughter lists are contiguous blocks *)

Lemma consecutive_close_tail a s : consecutive_close (a :: s) → consecutive_close s.
Proof. intros H j x y Hx Hy. by apply (H (S j)). Qed.

Lemma sorted_close_iff_interval (l : list Z) :
  StronglySorted Z.lt l →
  consecutive_close l ↔ ∀ a b k, a ∈ l → b ∈ l → a ≤ k ≤ b → k ∈ l.
Proof.
  induction 1 as [|x l Hs IH Hall]; [split; [by intros _ a b k ?%elem_of_nil | by intros _ j a b ?]|].
  rewrite Forall_forall in Hall. split.
  - intros Hcc a b k Ha Hb Hk.
    destruct (decide (k = x)) as [->|Hkx]; [by left|]. right.
    destruct l as [|y l]; [apply list_elem_of_singleton in Ha, Hb; lia|].
    apply consecutive_close_cons in Hcc as [Hxy Hcc].
    assert (x < y) by (apply Hall; by left).
    assert (Hy : y = x + 1) by lia.
    assert (Hbl : b ∈ y :: l).
    { apply elem_of_cons in Hb as [->|Hb]; [|done].
      apply elem_of_cons in Ha as [->|Ha]; [lia|]. specialize (Hall _ Ha). lia. }
    apply elem_of_cons in Ha as [->|Ha].
    + apply (proj1 (IH) Hcc y b k); [by left|done|lia].
    + by apply (proj1 (IH) Hcc a b k).
  - intros Hint. destruct l as [|y l]; [apply consecutive_close_singleton|].
    assert (Hxy : x < y) by (apply Hall; by left).
    apply consecutive_close_cons. split.
    + assert (Hin : x + 1 ∈ x :: y :: l).
      { apply (Hint x y); [by left|right; by left|lia]. }
      apply elem_of_cons in Hin as [?|Hin]; [lia|].
      apply elem_of_cons in Hin as [?|Hin]; [lia|].
      apply StronglySorted_inv in Hs as [_ Hy]. rewrite Forall_forall in Hy.
      specialize (Hy _ Hin). lia.
    + apply IH. intros a b k Ha Hb Hk.
      assert (Hin : k ∈ x :: y :: l) by (apply (Hint a b k); [by right|by right|done]).
      apply elem_of_cons in Hin as [->|Hin]; [|done]. specialize (Hall _ Ha). lia.
Qed.

Lemma merge_sort_collect_daughters m ps i :
  merge_sort Z.le (collect_daughters m ps i) = collect_daughters m ps i.
Proof.
  apply (Sorted_unique Z.le).
  - apply (Sorted_merge_sort Z.le).
  - apply StronglySorted_Sorted.
    pose proof (collect_daughters_sorted m ps i) as Hs.
    induction Hs as [|x l Hs IH Hall]; constructor; [done|].
    eapply Forall_impl; [exact Hall|]. intros y Hy. simpl in *. lia.
  - apply merge_sort_Permutation.
Qed.

(** X4.  [HasCompactDaughterList(m)] answers "compact" exactly when the
    entries whose first mother is [m] occupy a block of consecutive
    positions: no other entry sits between two daughters of [m]. *)
Theorem HasCompactDaughterList_contiguous (r : GHepRecord) (m : Z) :
  HasCompactDaughterList r m = true ↔ daughters_contiguous r m.
Proof.
  unfold HasCompactDaughterList, daughters_contiguous.
  setoid_rewrite <- elem_of_collect_daughters_record.
  rewrite merge_sort_collect_daughters.
  pose proof (collect_daughters_sorted m (particles r) 0) as Hs.
  destruct (Nat.ltb_spec 1 (length (collect_daughters m (particles r) 0))) as [Hlen|Hlen].
  - rewrite check_adjacent_head. by apply sorted_close_iff_interval.
  - split; [intros _|done]. apply sorted_close_iff_interval; [done|].
    destruct (collect_daughters m (particles r) 0) as [|x [|y l]]; simpl in Hlen; try lia.
    + by intros j a b ?.
    + apply consecutive_close_singleton.
Qed.

(** ** The derivation pass on its own *)

Lemma GetParticle_of_nat r (j : nat) : GetParticle r (Z.of_nat j) = particles r !! j.
Proof.
  apply option_eq. intros p. rewrite GetParticle_Some, Nat2Z.id. split; [tauto|].
  split; [lia|done].
Qed.

Lemma record_ext (r1 r2 : GHepRecord) :
  (∀ k, GetParticle r1 k = GetParticle r2 k) →
  fInteraction r1 = fInteraction r2 → fIsPauliBlocked r1 = fIsPauliBlocked r2 →
  fIsBelowThrNRF r1 = fIsBelowThrNRF r2 → fGenericErrFlag r1 = fGenericErrFlag r2 →
  r1 = r2.
Proof.
  destruct r1, r2; simpl. intros Hget -> -> -> ->. f_equal.
  apply list_eq. intros j. specialize (Hget (Z.of_nat j)).
  by rewrite !GetParticle_of_nat in Hget.
Qed.

Lemma finalize_fold_frame js r :
  fInteraction (foldl finalize_entry r js) = fInteraction r ∧
  fIsPauliBlocked (foldl finalize_entry r js) = fIsPauliBlocked r ∧
  fIsBelowThrNRF (foldl finalize_entry r js) = fIsBelowThrNRF r ∧
  fGenericErrFlag (foldl finalize_entry r js) = fGenericErrFlag r.
Proof.
  revert r. induction js as [|j js IH]; intros r; [done|].
  change (foldl finalize_entry r (j :: js))
    with (foldl finalize_entry (finalize_entry r j) js).
  destruct (IH (finalize_entry r j)) as (-> & -> & -> & ->).
  by rewrite finalize_entry_eq.
Qed.

Lemma GetParticle_Finalize_fmap r i :
  GetParticle (FinalizeDaughterLists r) i = rederive r i <$> GetParticle r i.
Proof.
  destruct (GetParticle r i) as [p|] eqn:Hp; [by apply GetParticle_Finalize|].
  apply GetParticle_None. rewrite GetEntries_Finalize. by apply GetParticle_None.
Qed.

(** X5.  [FinalizeDaughterLists] only rewrites daughter ranges, reading
    nothing but the first mothers: it keeps the flags and the summary, and
    running it a second time changes nothing. *)
Theorem FinalizeDaughterLists_idempotent (r : GHepRecord) :
  FinalizeDaughterLists (FinalizeDaughterLists r) = FinalizeDaughterLists r ∧
  fInteraction (FinalizeDaughterLists r) = fInteraction r ∧
  fIsPauliBlocked (FinalizeDaughterLists r) = fIsPauliBlocked r ∧
  fIsBelowThrNRF (FinalizeDaughterLists r) = fIsBelowThrNRF r ∧
  fGenericErrFlag (FinalizeDaughterLists r) = fGenericErrFlag r.
Proof.
  assert (Hframe : ∀ r0, fInteraction (FinalizeDaughterLists r0) = fInteraction r0 ∧
            fIsPauliBlocked (FinalizeDaughterLists r0) = fIsPauliBlocked r0 ∧
            fIsBelowThrNRF (FinalizeDaughterLists r0) = fIsBelowThrNRF r0 ∧
            fGenericErrFlag (FinalizeDaughterLists r0) = fGenericErrFlag r0)
    by (intros r0; apply finalize_fold_frame).
  split; [|apply Hframe].
  destruct (Hframe r) as (H1 & H2 & H3 & H4).
  destruct (Hframe (FinalizeDaughterLists r)) as (H1' & H2' & H3' & H4').
  apply record_ext; [|congruence..].
  intros k. rewrite !GetParticle_Finalize_fmap.
  destruct (GetParticle r k) as [p|]; [|done]. simpl. f_equal.
  unfold rederive.
  by rewrite (derived_range_mothers _ r k (FinalizeDaughterLists_mothers r)).
Qed.

Lemma HasCompactDaughterList_mothers r r' m :
  FirstMother <$> particles r = FirstMother <$> particles r' →
  HasCompactDaughterList r m = HasCompactDaughterList r' m.
Proof.
  intros H. unfold HasCompactDaughterList.
  by rewrite (collect_daughters_mothers _ _ _ _ H).
Qed.

Lemma classic_daughter r i :
  (∃ k, is_daughter_of r i k) ∨ (∀ k, ¬ is_daughter_of r i k).
Proof.
  destruct (collect_daughters i (particles r) 0) as [|k l] eqn:Hc.
  - right. intros k Hk%elem_of_collect_daughters_record. rewrite Hc in Hk.
    by apply elem_of_nil in Hk.
  - left. exists k. apply elem_of_collect_daughters_record. rewrite Hc. by left.
Qed.

(** X6.  The derivation pass yields exact daughter ranges precisely on
    compact records: after [FinalizeDaughterLists], every entry with a range
    other than (-1,-1) has exactly its daughters inside that range if and
    only if the compactness check held for every position of the record.
    An entry left with (-1,-1) never has a daughter. *)
Theorem FinalizeDaughterLists_exact_iff_compact (r : GHepRecord) :
  (daughter_ranges_exact (FinalizeDaughterLists r) ↔
   ∀ m, 0 ≤ m < GetEntries r → HasCompactDaughterList r m = true) ∧
  (∀ i p, GetParticle (FinalizeDaughterLists r) i = Some p → FirstDaughter p = -1 →
     ∀ k, ¬ is_daughter_of (FinalizeDaughterLists r) i k).
Proof.
  split; [split|].
  - intros Hexact m Hm. apply HasCompactDaughterList_contiguous. intros a b k Ha Hb Hk.
    destruct (GetParticle_is_Some r m) as [_ [p Hp]]; [done|].
    pose proof (GetParticle_Finalize r m p Hp) as Hp'.
    destruct (derived_range_spec r m) as [_ Hsome].
    destruct (Hsome a Ha) as (Hd1 & _ & Ha1 & _).
    destruct (Hsome b Hb) as (_ & _ & _ & Hb2).
    assert (Hne : FirstDaughter (rederive r m p) ≠ -1).
    { simpl. destruct Hd1 as (q & [? _]%GetParticle_Some & _). lia. }
    apply is_daughter_of_Finalize.
    apply (Hexact m _ Hp' Hne k). simpl. lia.
  - intros Hcompact i p' Hp' Hne k.
    rewrite GetParticle_Finalize_fmap in Hp'.
    destruct (GetParticle r i) as [p|] eqn:Hp; [|done]. injection Hp' as <-.
    simpl in *. rewrite is_daughter_of_Finalize.
    destruct (derived_range_spec r i) as [Hnone Hsome]. split.
    + intros Hk. destruct (Hsome k Hk) as (_ & _ & ?). done.
    + intros Hk.
      assert (∃ k0, is_daughter_of r i k0) as [k0 Hk0].
      { destruct (classic_daughter r i) as [Hex|Hno]; [done|].
        rewrite (Hnone Hno) in Hne. done. }
      destruct (Hsome k0 Hk0) as (Hd1 & Hd2 & _).
      assert (Hi : 0 ≤ i < GetEntries r) by (apply GetParticle_is_Some; eauto).
      pose proof (proj1 (HasCompactDaughterList_contiguous r i) (Hcompact i Hi)) as Hc.
      by apply (Hc _ _ k Hd1 Hd2).
  - intros i p' Hp' Hnone k Hk.
    rewrite GetParticle_Finalize_fmap in Hp'.
    destruct (GetParticle r i) as [p|] eqn:Hp; [|done]. injection Hp' as <-.
    simpl in Hnone. rewrite is_daughter_of_Finalize in Hk.
    destruct (derived_range_spec r i) as [_ Hsome].
    destruct (Hsome k Hk) as ((q & [? _]%GetParticle_Some & _) & _). lia.
Qed.

(** ** The compactifier on a record that is already compact *)

Lemma compactify_loop_compact n r start idxs :
  (∀ i, i ∈ idxs → HasCompactDaughterList r i = true) →
  oloop (compactify_entry n) idxs (r, start) = Returns (r, start).
Proof.
  induction idxs as [|i idxs IH]; intros Hall; cbn [oloop]; [done|].
  assert (compactify_entry n (r, start) i = Returns (r, start)) as ->.
  { unfold compactify_entry. cbv zeta. by rewrite (Hall i) by (by left). }
  apply IH. intros j Hj. apply Hall. by right.
Qed.

(** X7.  On a record whose daughter lists are all compact,
    [CompactifyDaughterLists] moves no entry: it returns the outcome of the
    derivation pass alone, the daughter ranges of that outcome are exact,
    and a further run returns the same record. *)
Theorem CompactifyDaughterLists_compact_record (r : GHepRecord) :
  (∀ m, 0 ≤ m < GetEntries r → HasCompactDaughterList r m = true) →
  CompactifyDaughterLists r = Returns (FinalizeDaughterLists r) ∧
  daughter_ranges_exact (FinalizeDaughterLists r) ∧
  CompactifyDaughterLists (FinalizeDaughterLists r) = Returns (FinalizeDaughterLists r).
Proof.
  intros Hcompact.
  assert (Hrun : ∀ r0, (∀ m, 0 ≤ m < GetEntries r0 → HasCompactDaughterList r0 m = true) →
            CompactifyDaughterLists r0 = Returns (FinalizeDaughterLists r0)).
  { intros r0 H0. unfold CompactifyDaughterLists, CompactifyPhase1.
    rewrite compactify_loop_compact; [done|].
    intros i Hi%elem_of_seqZ. apply H0. lia. }
  split_and!.
  - by apply Hrun.
  - by apply FinalizeDaughterLists_exact_iff_compact.
  - rewrite Hrun.
    + f_equal. apply FinalizeDaughterLists_idempotent.
    + intros m Hm. rewrite GetEntries_Finalize in Hm.
      rewrite (HasCompactDaughterList_mothers _ r m (FinalizeDaughterLists_mothers r)).
      by apply Hcompact.
Qed.

Lemma CompactifyDaughterLists_compact_record_witness :
  (∀ m, 0 ≤ m < GetEntries scenario_A_unlinked →
        HasCompactDaughterList scenario_A_unlinked m = true) ∧
  CompactifyDaughterLists scenario_A_unlinked =
    Returns (FinalizeDaughterLists scenario_A_unlinked) ∧
  daughter_ranges_exact (FinalizeDaughterLists scenario_A_unlinked) ∧
  CompactifyDaughterLists (FinalizeDaughterLists scenario_A_unlinked) =
    Returns (FinalizeDaughterLists scenario_A_unlinked).
Proof.
  assert (∀ m, 0 ≤ m < GetEntries scenario_A_unlinked →
               HasCompactDaughterList scenario_A_unlinked m = true) as Hall.
  { intros m Hm. change (GetEntries scenario_A_unlinked) with 3 in Hm.
    assert (m = 0 ∨ m = 1 ∨ m = 2) as Hcases by lia.
    destruct Hcases as [-> | [-> | ->]]; reflexivity. }
  split; [exact Hall|].
  exact (CompactifyDaughterLists_compact_record scenario_A_unlinked Hall).
Defined.

(** ** Swapping two slots *)

Lemma but_mother_SetFirstMother m p : but_mother (SetFirstMother m p) = but_mother p.
Proof. done. Qed.

Lemma GetParticle_exchanged r i j pi pj k :
  i ≠ j → GetParticle r i = Some pi → GetParticle r j = Some pj →
  GetParticle (set_slot (GHepParticle_Copy pi) j (set_slot (GHepParticle_Copy pj) i r)) k
  = GetParticle r (moved i j k).
Proof.
  intros Hne Hpi Hpj.
  assert (Hi : 0 ≤ i) by (apply GetParticle_Some in Hpi; lia).
  assert (Hj : 0 ≤ j) by (apply GetParticle_Some in Hpj; lia).
  unfold moved. destruct (Z.eqb_spec k i) as [->|Hki].
  - rewrite GetParticle_set_slot_ne by done.
    by rewrite (GetParticle_set_slot_eq _ _ _ _ Hpi), Hpj.
  - destruct (Z.eqb_spec k j) as [->|Hkj].
    + rewrite (GetParticle_set_slot_eq (GHepParticle_Copy pi) _ _ pj), Hpi; [done|].
      by rewrite GetParticle_set_slot_ne.
    + by rewrite !GetParticle_set_slot_ne.
Qed.

Lemma tell_daughters_but_mother p m r r' k :
  tell_daughters p m r = Returns r' →
  but_mother <$> GetParticle r' k = but_mother <$> GetParticle r k.
Proof.
  intros (_ & _ & Hget)%tell_daughters_spec. rewrite Hget.
  destruct (decide _); [|done]. by destruct (GetParticle r k).
Qed.

(** Whatever the daughter ranges, a swap that returns has exchanged the two
    slots and kept all others, up to the first-mother fields. *)
Lemma SwapParticles_slots r i j r' k :
  SwapParticles r i j = Returns r' →
  GetEntries r' = GetEntries r ∧
  but_mother <$> GetParticle r' k = but_mother <$> GetParticle r (moved i j k).
Proof.
  intros Hswap. split; [by eapply SwapParticles_GetEntries|].
  destruct (decide (i = j)) as [->|Hne].
  - revert Hswap. unfold SwapParticles. destruct (negb _); [done|].
    rewrite Z.eqb_refl. intros [= <-]. unfold moved.
    by destruct (Z.eqb_spec k j) as [->|?].
  - destruct (SwapParticles_Returns _ _ _ _ Hne Hswap)
      as (pi & pj & r3 & pj' & Hpi & Hpj & Htell1 & _ & Htell2).
    rewrite (tell_daughters_but_mother _ _ _ _ k Htell2).
    rewrite (tell_daughters_but_mother _ _ _ _ k Htell1).
    by rewrite (GetParticle_exchanged r i j pi pj k).
Qed.

Lemma tell_loop_Returns m ks : ∀ r,
  (∀ k, k ∈ ks → 0 ≤ k < GetEntries r) →
  ∃ r', oloop (λ r' k, update_slot (SetFirstMother m) k r') ks r = Returns r'.
Proof.
  induction ks as [|k ks IH]; intros r Hks; cbn [oloop]; [eauto|].
  destruct (GetParticle_is_Some r k) as [_ [p Hp]]; [apply Hks; by left|].
  assert (update_slot (SetFirstMother m) k r = Returns (set_slot (SetFirstMother m) k r)) as ->.
  { apply update_slot_Returns. eauto. }
  simpl. apply IH. intros k' Hk'. rewrite GetEntries_set_slot. apply Hks. by right.
Qed.

Lemma tell_daughters_Returns p m r :
  (HasDaughters p = true → 0 ≤ FirstDaughter p ∧ LastDaughter p < GetEntries r) →
  ∃ r', tell_daughters p m r = Returns r'.
Proof.
  intros Hb. unfold tell_daughters. destruct (HasDaughters p); [|eauto].
  apply tell_loop_Returns. intros k Hk%elem_of_seqZ. destruct Hb; [done|]. lia.
Qed.

Lemma ranges_in_bounds_but_mother r r' :
  GetEntries r' = GetEntries r →
  (∀ k p', GetParticle r' k = Some p' →
     ∃ k0 p, GetParticle r k0 = Some p ∧ but_mother p' = but_mother p) →
  ranges_in_bounds r → ranges_in_bounds r'.
Proof.
  intros Hn Hslots Hb i p' Hp' Hd.
  destruct (Hslots i p' Hp') as (k0 & p & Hp & Hsame).
  assert (Hfd : FirstDaughter p' = FirstDaughter p) by exact (f_equal FirstDaughter Hsame).
  assert (Hld : LastDaughter p' = LastDaughter p) by exact (f_equal LastDaughter Hsame).
  rewrite Hn, Hfd, Hld. apply (Hb k0 p Hp). unfold HasDaughters in *. by rewrite <- Hfd.
Qed.

Lemma SwapParticles_in_bounds r i j :
  0 ≤ i < GetEntries r → 0 ≤ j < GetEntries r → ranges_in_bounds r →
  ∃ r', SwapParticles r i j = Returns r' ∧
        GetEntries r' = GetEntries r ∧ ranges_in_bounds r'.
Proof.
  intros Hi Hj Hb.
  assert (∃ r', SwapParticles r i j = Returns r') as [r' Hr'].
  { unfold SwapParticles.
    destruct (Z.leb_spec 0 i); [|lia]. destruct (Z.leb_spec 0 j); [|lia].
    destruct (Z.ltb_spec i (GetEntries r)); [|lia].
    destruct (Z.ltb_spec j (GetEntries r)); [|lia]. cbn [andb negb].
    destruct (Z.eqb_spec i j) as [->|Hne]; [eauto|].
    destruct (GetParticle_is_Some r i) as [_ [pi Hpi]]; [done|].
    destruct (GetParticle_is_Some r j) as [_ [pj Hpj]]; [done|].
    rewrite Hpi, Hpj. cbn [deref mbind outcome_bind].
    set (r2 := set_slot (GHepParticle_Copy pi) j (set_slot (GHepParticle_Copy pj) i r)).
    assert (Hn2 : GetEntries r2 = GetEntries r) by (unfold r2; by rewrite !GetEntries_set_slot).
    assert (Hr2 : ∀ k, GetParticle r2 k = GetParticle r (moved i j k))
      by (intros k; by apply GetParticle_exchanged).
    assert (Hr2i : GetParticle r2 i = Some pj).
    { rewrite Hr2. unfold moved. by rewrite Z.eqb_refl. }
    rewrite Hr2i. cbn [deref mbind outcome_bind].
    destruct (tell_daughters_Returns pj j r2) as [r3 Hr3].
    { rewrite Hn2. by apply (Hb j pj). }
    rewrite Hr3. cbn [mbind outcome_bind].
    pose proof Hr3 as (Hn3 & _ & Hget3)%tell_daughters_spec.
    destruct (GetParticle_is_Some r3 j) as [_ [pj' Hpj']]; [lia|].
    rewrite Hpj'. cbn [deref mbind outcome_bind].
    apply tell_daughters_Returns. intros Hd.
    pose proof (tell_daughters_but_mother _ _ _ _ j Hr3) as Hsame.
    rewrite Hpj', Hr2 in Hsame. unfold moved in Hsame.
    destruct (Z.eqb_spec j i) as [?|_]; [lia|]. rewrite Z.eqb_refl, Hpi in Hsame.
    apply (inj Some) in Hsame.
    assert (Hfd : FirstDaughter pj' = FirstDaughter pi) by exact (f_equal FirstDaughter Hsame).
    assert (Hld : LastDaughter pj' = LastDaughter pi) by exact (f_equal LastDaughter Hsame).
    rewrite Hn3, Hn2, Hfd, Hld. apply (Hb i pi Hpi). unfold HasDaughters in *.
    by rewrite <- Hfd. }
  exists r'. split; [done|].
  pose proof (SwapParticles_GetEntries _ _ _ _ Hr') as Hn. split; [done|].
  apply (ranges_in_bounds_but_mother r r' Hn); [|done].
  intros k p' Hp'. destruct (SwapParticles_slots r i j r' k Hr') as [_ Hk].
  rewrite Hp' in Hk. destruct (GetParticle r (moved i j k)) as [p|] eqn:Hp; [|done].
  apply (inj Some) in Hk. eauto.
Qed.

(** ** The compactifier returns *)

Lemma scan_step_eq i r start ndau k :
  scan_step i (r, start, ndau) k =
  (p ← deref (GetParticle r k);
   if FirstMother p =? i
   then r' ← SwapParticles r start k; Returns (r', start + 1, ndau + 1)
   else Returns (r, start, ndau)).
Proof. reflexivity. Qed.

Lemma compactify_entry_eq n r start i :
  compactify_entry n (r, start) i =
  if negb (HasCompactDaughterList r i) then
    st ← oloop (scan_step i) (seqZ (start + 1) (n - (start + 1))) (r, start, 0);
    if 0 <? st.2 then
      r1 ← update_slot (SetFirstDaughter start) i st.1.1;
      r2 ← update_slot (SetLastDaughter (start + st.2)) i r1;
      Returns (r2, st.1.2)
    else
      r1 ← update_slot (SetFirstDaughter (-1)) i st.1.1;
      r2 ← update_slot (SetLastDaughter (-1)) i r1;
      Returns (r2, st.1.2)
  else Returns (r, start).
Proof.
  unfold compactify_entry. destruct (negb _); [|done].
  by destruct (oloop _ _ _) as [[[r1 start1] ndau]|].
Qed.

Lemma scan_loop_Returns i n (len : nat) : ∀ k0 r start ndau,
  GetEntries r = n → ranges_in_bounds r →
  0 ≤ start < k0 → k0 + Z.of_nat len ≤ n →
  ∃ r' start' ndau',
    oloop (scan_step i) (seqZ k0 (Z.of_nat len)) (r, start, ndau)
      = Returns (r', start', ndau') ∧
    GetEntries r' = n ∧ ranges_in_bounds r' ∧
    start ≤ start' < k0 + Z.of_nat len ∧ start' - ndau' = start - ndau.
Proof.
  induction len as [|len IH]; intros k0 r start ndau Hn Hb Hstart Hlen.
  - exists r, start, ndau. split_and!; [done|done|done|lia|lia|done].
  - rewrite seqZ_cons by lia. cbn [oloop].
    replace (Z.pred (Z.of_nat (S len))) with (Z.of_nat len) by lia.
    destruct (GetParticle_is_Some r k0) as [_ [p Hp]]; [lia|].
    rewrite scan_step_eq, Hp. cbn [deref mbind outcome_bind].
    destruct (FirstMother p =? i).
    + destruct (SwapParticles_in_bounds r start k0) as (r1 & Hr1 & Hn1 & Hb1); [lia|lia|done|].
      rewrite Hr1. cbn [mbind outcome_bind].
      destruct (IH (Z.succ k0) r1 (start + 1) (ndau + 1))
        as (r' & start' & ndau' & Hloop & Hn' & Hb' & Hs' & Hd'); [lia|done|lia|lia|].
      exists r', start', ndau'. split_and!; [done|done|done|lia|lia|lia].
    + cbn [mbind outcome_bind].
      destruct (IH (Z.succ k0) r start ndau)
        as (r' & start' & ndau' & Hloop & Hn' & Hb' & Hs' & Hd'); [done|done|lia|lia|].
      exists r', start', ndau'. split_and!; [done|done|done|lia|lia|lia].
Qed.

Lemma update_slot_twice f g i r p :
  GetParticle r i = Some p →
  ∃ r', (r1 ← update_slot f i r; update_slot g i r1) = Returns r' ∧
    GetEntries r' = GetEntries r ∧
    ∀ k, GetParticle r' k = if decide (k = i) then Some (g (f p)) else GetParticle r k.
Proof.
  intros Hp. assert (Hi : 0 ≤ i) by (apply GetParticle_Some in Hp; lia).
  exists (set_slot g i (set_slot f i r)).
  assert (Hp1 : GetParticle (set_slot f i r) i = Some (f p))
    by (by apply GetParticle_set_slot_eq).
  split_and!.
  - unfold update_slot. rewrite Hp. cbn [deref mbind outcome_bind]. by rewrite Hp1.
  - by rewrite !GetEntries_set_slot.
  - intros k. destruct (decide (k = i)) as [->|Hne].
    + by apply GetParticle_set_slot_eq.
    + by rewrite !GetParticle_set_slot_ne.
Qed.

Lemma compactify_entry_Returns n r start i :
  GetEntries r = n → ranges_in_bounds r → 0 ≤ i < n → 0 ≤ start ≤ n →
  ∃ r' start', compactify_entry n (r, start) i = Returns (r', start') ∧
    GetEntries r' = n ∧ ranges_in_bounds r' ∧ 0 ≤ start' ≤ n.
Proof.
  intros Hn Hb Hi Hstart. rewrite compactify_entry_eq.
  destruct (HasCompactDaughterList r i); cbn [negb]; [exists r, start; done|].
  assert (∃ r1 start1 ndau,
    oloop (scan_step i) (seqZ (start + 1) (n - (start + 1))) (r, start, 0)
      = Returns (r1, start1, ndau) ∧
    GetEntries r1 = n ∧ ranges_in_bounds r1 ∧
    start ≤ start1 ∧ start1 = start + ndau ∧ (0 < ndau → start1 < n))
    as (r1 & start1 & ndau & -> & Hn1 & Hb1 & Hs1 & Hd1 & Hlt).
  { destruct (decide (start + 1 ≤ n)) as [Hle|Hgt].
    - destruct (scan_loop_Returns i n (Z.to_nat (n - (start + 1))) (start + 1) r start 0)
        as (r1 & start1 & ndau & Hloop & ? & ? & ? & ?); [done|done|lia|lia|].
      rewrite Z2Nat.id in Hloop by lia.
      exists r1, start1, ndau. split_and!; [done|done|done|lia|lia|lia].
    - rewrite seqZ_nil by lia. exists r, start, 0. split_and!; [done|done|done|lia|lia|lia]. }
  cbn [mbind outcome_bind fst snd].
  destruct (GetParticle_is_Some r1 i) as [_ [p Hp]]; [lia|].
  destruct (Z.ltb_spec 0 ndau) as [Hpos|Hzero].
  - destruct (update_slot_twice (SetFirstDaughter start) (SetLastDaughter (start + ndau)) i r1 p Hp)
      as (r2 & Hr2 & Hn2 & Hget).
    apply bind_Returns in Hr2 as (ra & Hra & Hrb). rewrite Hra. cbn [mbind outcome_bind].
    rewrite Hrb. cbn [mbind outcome_bind].
    exists r2, start1. split_and!; [done|lia| |lia|lia].
    intros k q Hq Hd. rewrite Hget in Hq. rewrite Hn2. destruct (decide (k = i)) as [->|Hne].
    + injection Hq as <-. simpl. lia.
    + by apply (Hb1 k q).
  - destruct (update_slot_twice (SetFirstDaughter (-1)) (SetLastDaughter (-1)) i r1 p Hp)
      as (r2 & Hr2 & Hn2 & Hget).
    apply bind_Returns in Hr2 as (ra & Hra & Hrb). rewrite Hra. cbn [mbind outcome_bind].
    rewrite Hrb. cbn [mbind outcome_bind].
    exists r2, start1. split_and!; [done|lia| |lia|lia].
    intros k q Hq Hd. rewrite Hget in Hq. rewrite Hn2. destruct (decide (k = i)) as [->|Hne].
    + injection Hq as <-. done.
    + by apply (Hb1 k q).
Qed.

Lemma compactify_loop_Returns n idxs : ∀ r start,
  GetEntries r = n → ranges_in_bounds r → 0 ≤ start ≤ n →
  (∀ i, i ∈ idxs → 0 ≤ i < n) →
  ∃ r' start', oloop (compactify_entry n) idxs (r, start) = Returns (r', start') ∧
    GetEntries r' = n ∧ ranges_in_bounds r'.
Proof.
  induction idxs as [|i idxs IH]; intros r start Hn Hb Hstart Hidx; cbn [oloop].
  - exists r, start. done.
  - destruct (compactify_entry_Returns n r start i) as (r1 & start1 & -> & Hn1 & Hb1 & Hs1);
      [done|done|apply Hidx; by left|done|].
    cbn [mbind outcome_bind]. apply IH; [done|done|done|].
    intros j Hj. apply Hidx. by right.
Qed.

Lemma FinalizeDaughterLists_in_bounds r : ranges_in_bounds (FinalizeDaughterLists r).
Proof.
  intros i p' Hp' Hd. rewrite GetParticle_Finalize_fmap in Hp'.
  destruct (GetParticle r i) as [p|] eqn:Hp; [|done]. injection Hp' as <-.
  unfold HasDaughters in Hd. simpl in *. rewrite GetEntries_Finalize.
  destruct (classic_daughter r i) as [[k Hk]|Hno].
  - destruct (derived_range_spec r i) as [_ Hsome].
    destruct (Hsome k Hk) as ((q1 & Hq1 & _) & (q2 & Hq2 & _) & _).
    assert (is_Some (GetParticle r (derived_range r i).1)) as ?%GetParticle_is_Some by eauto.
    assert (is_Some (GetParticle r (derived_range r i).2)) as ?%GetParticle_is_Some by eauto.
    lia.
  - destruct (derived_range_spec r i) as [Hnone _]. rewrite (Hnone Hno) in Hd. done.
Qed.

Lemma ranges_in_boundsb_correct r : ranges_in_boundsb r = true → ranges_in_bounds r.
Proof.
  unfold ranges_in_boundsb. rewrite forallb_forall. intros Hall i p Hp Hd.
  apply GetParticle_Some in Hp as [_ Hp].
  apply list_elem_of_lookup_2, list_elem_of_In in Hp. specialize (Hall p Hp).
  rewrite Hd in Hall. simpl in Hall.
  apply andb_true_iff in Hall as [H1 H2]. lia.
Qed.

(** X8.  [CompactifyDaughterLists] returns, with no failed assertion and no
    null pointer dereferenced, on every record whose daughter ranges lie
    inside the record; it keeps the number of entries, and the daughter
    ranges of its outcome lie inside the record again. *)
Theorem CompactifyDaughterLists_returns (r : GHepRecord) :
  ranges_in_bounds r →
  ∃ r', CompactifyDaughterLists r = Returns r' ∧
    GetEntries r' = GetEntries r ∧ ranges_in_bounds r'.
Proof.
  intros Hb. unfold CompactifyDaughterLists, CompactifyPhase1.
  destruct (compactify_loop_Returns (GetEntries r) (seqZ 0 (GetEntries r)) r
              (FirstNonInitStateEntry r)) as (r1 & start1 & -> & Hn1 & Hb1);
    [done|done|apply FirstNonInitStateEntry_spec| |].
  { intros i Hi%elem_of_seqZ. lia. }
  cbn [mbind outcome_bind]. exists (FinalizeDaughterLists r1).
  split_and!; [done|by rewrite GetEntries_Finalize|apply FinalizeDaughterLists_in_bounds].
Qed.

Lemma CompactifyDaughterLists_returns_witness :
  ranges_in_bounds (before_compaction scenario_B) ∧
  ∃ r', CompactifyDaughterLists (before_compaction scenario_B) = Returns r' ∧
    GetEntries r' = 4 ∧ ranges_in_bounds r'.
Proof.
  assert (ranges_in_bounds (before_compaction scenario_B)) as Hin
    by (apply ranges_in_boundsb_correct; reflexivity).
  split; [exact Hin|].
  exact (CompactifyDaughterLists_returns (before_compaction scenario_B) Hin).
Defined.

(** ** Appending returns *)

Lemma GetEntries_placed r p :
  GetEntries (with_particles r (particles r ++ [p])) = GetEntries r + 1.
Proof. unfold GetEntries; simpl. rewrite length_app; simpl. lia. Qed.

Lemma GetParticle_placed r p k :
  GetParticle (with_particles r (particles r ++ [p])) k =
  if decide (k = GetEntries r) then Some p else GetParticle r k.
Proof.
  apply option_eq. intros q. destruct (decide (k = GetEntries r)) as [->|Hne].
  - rewrite GetParticle_Some. unfold GetEntries; simpl. rewrite Nat2Z.id.
    rewrite lookup_app_r, Nat.sub_diag by lia. simpl. split; [by intros [_ ?]|].
    split; [lia|done].
  - rewrite !GetParticle_Some. simpl. split.
    + intros [Hk Hq]. split; [done|].
      apply lookup_app_Some in Hq as [Hq|[Hlen Hq]]; [done|].
      apply list_lookup_singleton_Some in Hq as [Hz _]. unfold GetEntries in Hne. lia.
    + intros [Hk Hq]. split; [done|]. apply lookup_app_Some. by left.
Qed.

Lemma ranges_in_bounds_set_slot f k r q :
  ranges_in_bounds r → GetParticle r k = Some q →
  (HasDaughters (f q) = true →
     0 ≤ FirstDaughter (f q) ∧ LastDaughter (f q) < GetEntries r) →
  ranges_in_bounds (set_slot f k r).
Proof.
  intros Hb Hq Hf i p Hp Hd. rewrite GetEntries_set_slot.
  assert (Hk : 0 ≤ k) by (apply GetParticle_Some in Hq; lia).
  destruct (decide (i = k)) as [->|Hne].
  - rewrite (GetParticle_set_slot_eq _ _ _ _ Hq) in Hp. injection Hp as <-. by apply Hf.
  - rewrite GetParticle_set_slot_ne in Hp by done. by apply (Hb i p).
Qed.

Lemma ranges_in_bounds_placed r p :
  ranges_in_bounds r →
  (HasDaughters p = true → 0 ≤ FirstDaughter p ∧ LastDaughter p ≤ GetEntries r) →
  ranges_in_bounds (with_particles r (particles r ++ [p])).
Proof.
  intros Hb Hp i q Hq Hd. rewrite GetEntries_placed. rewrite GetParticle_placed in Hq.
  destruct (decide (i = GetEntries r)) as [->|Hne].
  - injection Hq as <-. destruct (Hp Hd). lia.
  - destruct (Hb i q Hq Hd). lia.
Qed.

Lemma UpdateDaughterLists_returns r :
  0 < GetEntries r → ranges_in_bounds r →
  ∃ path r', UpdateDaughterLists r = Returns (path, r') ∧
    GetEntries r' = GetEntries r ∧ ranges_in_bounds r'.
Proof.
  intros Hn Hb. unfold UpdateDaughterLists.
  destruct (GetParticle_is_Some r (GetEntries r - 1)) as [_ [p ->]]; [lia|].
  destruct (FirstMother p =? -1); [by exists NoMother, r|].
  destruct (GetParticle r (FirstMother p)) as [mom|] eqn:Hmom; [|by exists NoMother, r].
  assert (Hm : 0 ≤ FirstMother p < GetEntries r) by (apply GetParticle_is_Some; eauto).
  destruct (Z.eqb_spec (FirstDaughter mom) (-1)) as [Hd1|Hd1].
  - eexists _, _. split; [done|]. split; [by rewrite !GetEntries_set_slot|].
    rewrite (set_slot_with_slot _ _ _ _ Hmom).
    erewrite set_slot_with_slot by (by eapply GetParticle_with_slot_eq).
    rewrite with_slot_with_slot, <- (set_slot_with_slot (λ _, _) _ _ _ Hmom).
    eapply ranges_in_bounds_set_slot; [done|done|]. simpl. lia.
  - assert (Hmd : 0 ≤ FirstDaughter mom ∧ LastDaughter mom < GetEntries r).
    { apply (Hb _ _ Hmom). unfold HasDaughters. by destruct (Z.eqb_spec (FirstDaughter mom) (-1)). }
    destruct (GetEntries r - 1 =? FirstDaughter mom - 1).
    { eexists _, _. split; [done|]. split; [by rewrite GetEntries_set_slot|].
      eapply ranges_in_bounds_set_slot; [done|done|]. simpl. lia. }
    destruct (GetEntries r - 1 =? LastDaughter mom + 1).
    { eexists _, _. split; [done|]. split; [by rewrite GetEntries_set_slot|].
      eapply ranges_in_bounds_set_slot; [done|done|]. simpl. lia. }
    destruct (CompactifyDaughterLists_returns r Hb) as (r' & -> & Hn' & Hb').
    by exists RanCompactifier, r'.
Qed.

(** X9.  Appending never aborts on entries that come without daughters,
    whatever their mother indices: from a record whose daughter ranges lie
    inside it (the empty record is one), [AddParticle] applied to any
    sequence of such entries returns, each append adds exactly one slot,
    and the daughter ranges still lie inside the record. *)
Theorem AddParticles_returns (ps : list GHepParticle) : ∀ r : GHepRecord,
  ranges_in_bounds r →
  Forall (λ p, HasDaughters p = false) ps →
  ∃ paths r', AddParticles r ps = Returns (paths, r') ∧
    length paths = length ps ∧
    GetEntries r' = GetEntries r + Z.of_nat (length ps) ∧
    ranges_in_bounds r'.
Proof.
  induction ps as [|p ps IH]; intros r Hb Hps; cbn [AddParticles].
  - exists [], r. split_and!; [done|done|simpl; lia|done].
  - apply Forall_cons in Hps as [Hp Hps]. unfold AddParticle.
    destruct (UpdateDaughterLists_returns (with_particles r (particles r ++ [p])))
      as (path & r1 & -> & Hn1 & Hb1).
    { rewrite GetEntries_placed. unfold GetEntries. lia. }
    { apply ranges_in_bounds_placed; [done|]. by rewrite Hp. }
    cbn [mbind outcome_bind].
    destruct (IH r1 Hb1 Hps) as (paths & r' & -> & Hlen & Hn' & Hb').
    cbn [mbind outcome_bind]. exists (path :: paths), r'.
    split_and!; [done|simpl; lia| |done].
    rewrite Hn', Hn1, GetEntries_placed. simpl length. lia.
Qed.

Lemma AddParticles_returns_witness :
  ranges_in_bounds empty_record ∧
  Forall (λ p, HasDaughters p = false) scenario_B ∧
  ∃ paths r', AddParticles empty_record scenario_B = Returns (paths, r') ∧
    length paths = 4%nat ∧ GetEntries r' = 4 ∧ ranges_in_bounds r'.
Proof.
  assert (ranges_in_bounds empty_record) as Hin
    by (apply ranges_in_boundsb_correct; reflexivity).
  assert (Forall (λ p, HasDaughters p = false) scenario_B) as Hnone
    by (repeat constructor).
  split; [exact Hin|]. split; [exact Hnone|].
  exact (AddParticles_returns scenario_B empty_record Hin Hnone).
Defined.

(** ** The cheap paths keep the ranges exact *)

Lemma is_daughter_of_placed r p m k :
  is_daughter_of (with_particles r (particles r ++ [p])) m k ↔
  is_daughter_of r m k ∨ (k = GetEntries r ∧ FirstMother p = m).
Proof.
  unfold is_daughter_of. setoid_rewrite GetParticle_placed.
  destruct (decide (k = GetEntries r)) as [->|Hne].
  - split.
    + intros (q & [= <-] & Hm). by right.
    + intros [(q & Hq & _)|[_ Hm]]; [|eauto].
      assert (is_Some (GetParticle r (GetEntries r))) as ?%GetParticle_is_Some by eauto. lia.
  - split; [by left|]. by intros [?|[? _]].
Qed.

Lemma is_daughter_of_set_slot f i0 r m k :
  (∀ p, FirstMother (f p) = FirstMother p) →
  is_daughter_of (set_slot f i0 r) m k ↔ is_daughter_of r m k.
Proof.
  intros Hf. split; apply is_daughter_of_mothers; by rewrite mothers_set_slot.
Qed.

(** X10.  The incremental update keeps exact genealogy as long as it stays
    on a cheap path.  On a record built in genealogical order with exact
    daughter ranges, appending an entry without daughters whose mother, if
    any, is already in the record leaves such a record again whenever the
    compactifier is not run; the update never takes the "just before"
    path, and it runs the compactifier exactly when the mother has
    daughters and the mother's block does not end at the last slot. *)
Theorem AddParticle_cheap_path_exact (r : GHepRecord) (p : GHepParticle)
    (path : UpdatePath) (r' : GHepRecord) :
  genealogy_exact r →
  FirstDaughter p = -1 → -1 ≤ FirstMother p < GetEntries r →
  AddParticle r p = Returns (path, r') →
  path ≠ AddedJustBefore ∧
  (path = RanCompactifier ↔
     ∃ mom, GetParticle r (FirstMother p) = Some mom ∧
            FirstDaughter mom ≠ -1 ∧ LastDaughter mom ≠ GetEntries r - 1) ∧
  (path ≠ RanCompactifier → genealogy_exact r').
Proof.
  intros [Hord Hex] Hpd Hpm. unfold AddParticle, UpdateDaughterLists.
  set (placed := with_particles r (particles r ++ [p])).
  assert (Hnp : GetEntries placed = GetEntries r + 1) by apply GetEntries_placed.
  assert (Hn0 : 0 ≤ GetEntries r) by (unfold GetEntries; lia).
  assert (Hlast : GetParticle placed (GetEntries placed - 1) = Some p).
  { unfold placed. rewrite GetParticle_placed, decide_True; [done|]. fold placed. lia. }
  rewrite Hlast.
  (* the placed record is in genealogical order, and the new entry has no daughter *)
  assert (Hord' : ∀ k q, GetParticle placed k = Some q → -1 ≤ FirstMother q < k).
  { intros k q Hq. unfold placed in Hq. rewrite GetParticle_placed in Hq.
    destruct (decide (k = GetEntries r)) as [->|_]; [by injection Hq as <-|by apply Hord]. }
  assert (Hnew : ∀ k, ¬ is_daughter_of placed (GetEntries r) k).
  { intros k (q & Hq & Hm). pose proof (Hord' k q Hq).
    assert (is_Some (GetParticle placed k)) as ?%GetParticle_is_Some by eauto. lia. }
  destruct (Z.eqb_spec (FirstMother p) (-1)) as [Hm1|Hm1].
  { intros [= <- <-]. split_and!; [done| |].
    - split; [done|]. intros (mom & Hmom & _). rewrite Hm1 in Hmom. done.
    - intros _. split; [done|]. intros i q Hq. unfold placed in Hq.
      rewrite GetParticle_placed in Hq.
      destruct (decide (i = GetEntries r)) as [->|Hne].
      + injection Hq as <-. split; [intros _; apply Hnew|done].
      + assert (0 ≤ i) by (apply GetParticle_Some in Hq; lia).
        destruct (Hex i q Hq) as [Hnone Hsome]. split.
        * intros Hd k [Hk|[_ ?]]%is_daughter_of_placed; [by apply (Hnone Hd k)|lia].
        * intros Hd. destruct (Hsome Hd) as [Hle Hiff]. split; [done|].
          intros k. unfold placed. rewrite is_daughter_of_placed, <- Hiff.
          split; [intros [?|[_ ?]]; [done|lia]|by left]. }
  assert (Hm : 0 ≤ FirstMother p < GetEntries r) by lia.
  destruct (GetParticle_is_Some r (FirstMother p)) as [_ [mom Hmom]]; [done|].
  assert (Hmom' : GetParticle placed (FirstMother p) = Some mom).
  { unfold placed. rewrite GetParticle_placed, decide_False by lia. done. }
  rewrite Hmom'. replace (GetEntries placed - 1) with (GetEntries r) by lia.
  destruct (Hex _ _ Hmom) as [Hmnone Hmsome].
  (* what the update leaves when it rewrites the range of the mother *)
  assert (Hkeep : ∀ f,
    (∀ q, FirstMother (f q) = FirstMother q) →
    (FirstDaughter (f mom) ≠ -1 ∧ FirstDaughter (f mom) ≤ LastDaughter (f mom) ∧
     ∀ k, is_daughter_of placed (FirstMother p) k ↔
          FirstDaughter (f mom) ≤ k ≤ LastDaughter (f mom)) →
    genealogy_exact (set_slot f (FirstMother p) placed)).
  { intros f Hf (Hfd & Hfle & Hfiff). split.
    - intros k q Hq. destruct (decide (k = FirstMother p)) as [->|Hne].
      + rewrite (GetParticle_set_slot_eq _ _ _ _ Hmom') in Hq. injection Hq as <-.
        rewrite Hf. by apply (Hord' _ _ Hmom').
      + rewrite GetParticle_set_slot_ne in Hq by lia. by apply Hord'.
    - intros i q Hq. setoid_rewrite (is_daughter_of_set_slot f _ placed i _ Hf).
      destruct (decide (i = FirstMother p)) as [->|Hne].
      + rewrite (GetParticle_set_slot_eq _ _ _ _ Hmom') in Hq. injection Hq as <-.
        split; [done|]. intros _. done.
      + rewrite GetParticle_set_slot_ne in Hq by lia.
        unfold placed in Hq. rewrite GetParticle_placed in Hq.
        destruct (decide (i = GetEntries r)) as [->|Hne'].
        * injection Hq as <-. split; [intros _; apply Hnew|done].
        * destruct (Hex i q Hq) as [Hnone Hsome]. split.
          -- intros Hd k [Hk|[_ ?]]%is_daughter_of_placed; [by apply (Hnone Hd k)|lia].
          -- intros Hd. destruct (Hsome Hd) as [Hle Hiff]. split; [done|].
             intros k. unfold placed. rewrite is_daughter_of_placed, <- Hiff.
             split; [intros [?|[_ ?]]; [done|lia]|by left]. }
  destruct (Z.eqb_spec (FirstDaughter mom) (-1)) as [Hd1|Hd1].
  { intros [= <- <-]. split_and!; [done| |].
    - split; [done|]. intros (mom0 & Hmom0 & Hne & _). congruence.
    - intros _.
      rewrite (set_slot_with_slot _ _ _ _ Hmom').
      erewrite set_slot_with_slot by (by eapply GetParticle_with_slot_eq).
      rewrite with_slot_with_slot,
        <- (set_slot_with_slot (λ q, SetLastDaughter (GetEntries r)
                                    (SetFirstDaughter (GetEntries r) q)) _ _ _ Hmom').
      apply Hkeep; [done|]. simpl. split_and!; [lia|lia|].
      intros k. unfold placed. rewrite is_daughter_of_placed. split.
      + intros [Hk|[-> _]]; [destruct (Hmnone Hd1 k Hk)|lia].
      + intros Hk. right. split; [lia|done]. }
  destruct (Hmsome Hd1) as [Hmle Hmiff].
  assert (Hmlast : LastDaughter mom < GetEntries r).
  { assert (is_daughter_of r (FirstMother p) (LastDaughter mom)) as (q & Hq & _)
      by (apply Hmiff; lia).
    assert (is_Some (GetParticle r (LastDaughter mom))) as ?%GetParticle_is_Some by eauto.
    lia. }
  destruct (Z.eqb_spec (GetEntries r) (FirstDaughter mom - 1)) as [Hb|Hb]; [lia|].
  destruct (Z.eqb_spec (GetEntries r) (LastDaughter mom + 1)) as [Ha|Ha].
  { intros [= <- <-]. split_and!; [done| |].
    - split; [done|]. intros (mom0 & Hmom0 & _ & Hne).
      assert (mom0 = mom) as -> by congruence. lia.
    - intros _. apply Hkeep; [done|]. simpl. split_and!; [done|lia|].
      intros k. unfold placed. rewrite is_daughter_of_placed, Hmiff. split.
      + intros [?|[-> _]]; lia.
      + intros Hk. destruct (decide (k = GetEntries r)) as [->|?]; [by right|left; lia]. }
  intros (rc & _ & [= <- <-])%bind_Returns. split_and!; [done| |done].
  split; [|done]. intros _. exists mom. split_and!; [done|done|lia].
Qed.

Lemma AddParticle_cheap_path_exact_witness :
  genealogy_exact scenario_A_one ∧
  AddParticle scenario_A_one (entry 13 kIStStableFinalState 0) =
    Returns (ListWasEmpty,
             with_particles empty_record
               [with_range 1 1 (entry 14 kIStInitialState (-1));
                entry 13 kIStStableFinalState 0]) ∧
  genealogy_exact
    (with_particles empty_record
       [with_range 1 1 (entry 14 kIStInitialState (-1));
        entry 13 kIStStableFinalState 0]).
Proof.
  assert (genealogy_exact empty_record) as H0.
  { split.
    - intros k q Hq. apply GetParticle_Some in Hq as [_ Hq]. done.
    - intros i p Hp. apply GetParticle_Some in Hp as [_ Hp]. done. }
  assert (genealogy_exact scenario_A_one) as H1.
  { refine (proj2 (proj2 (AddParticle_cheap_path_exact empty_record
              (entry 14 kIStInitialState (-1)) NoMother scenario_A_one
              H0 eq_refl _ eq_refl)) _); [vm_compute; split; [discriminate|reflexivity]|done]. }
  split; [exact H1|]. split; [reflexivity|].
  refine (proj2 (proj2 (AddParticle_cheap_path_exact scenario_A_one
            (entry 13 kIStStableFinalState 0) ListWasEmpty _
            H1 eq_refl _ eq_refl)) _); [vm_compute; split; [discriminate|reflexivity]|done].
Defined.

(** ** The compactifier only rearranges *)

Lemma payload_but_mother p q : but_mother p = but_mother q → payload p = payload q.
Proof.
  intros H. unfold payload.
  by rewrite (f_equal PdgCode H : PdgCode p = PdgCode q),
             (f_equal Status H : Status p = Status q),
             (f_equal LastMother H : LastMother p = LastMother q),
             (f_equal P4 H : P4 p = P4 q), (f_equal X4 H : X4 p = X4 q).
Qed.

Lemma payload_fmap_but_mother (o1 o2 : option GHepParticle) :
  but_mother <$> o1 = but_mother <$> o2 → payload <$> o1 = payload <$> o2.
Proof.
  destruct o1, o2; simpl; try done. intros H%(inj Some). f_equal.
  by apply payload_but_mother.
Qed.

Lemma fmap_set_slot {B} (g : GHepParticle → B) f k r :
  (∀ p, g (f p) = g p) →
  g <$> particles (set_slot f k r) = g <$> particles r.
Proof.
  intros Hf. unfold set_slot; simpl. apply list_eq. intros j.
  rewrite !list_lookup_fmap.
  destruct (decide (Z.to_nat k = j)) as [<-|Hne].
  - rewrite list_lookup_alter_eq. destruct (particles r !! Z.to_nat k); simpl; by rewrite ?Hf.
  - by rewrite list_lookup_alter_ne.
Qed.

Lemma SwapParticles_payload r i j r' :
  SwapParticles r i j = Returns r' →
  payload <$> particles r' ≡ₚ payload <$> particles r.
Proof.
  intros Hswap. destruct (decide (i = j)) as [->|Hne].
  - revert Hswap. unfold SwapParticles. destruct (negb _); [done|].
    rewrite Z.eqb_refl. by intros [= <-].
  - destruct (SwapParticles_Returns _ _ _ _ Hne Hswap)
      as (pi & pj & _ & _ & Hpi & Hpj & _).
    apply GetParticle_Some in Hpi as [Hi Hpi]. apply GetParticle_Some in Hpj as [Hj Hpj].
    rewrite <- (Permutation_insert_swap (payload <$> particles r)
                  (Z.to_nat i) (Z.to_nat j) (payload pi) (payload pj))
      by (by rewrite list_lookup_fmap, ?Hpi, ?Hpj).
    replace (payload <$> particles r')
      with (<[Z.to_nat j:=payload pi]> (<[Z.to_nat i:=payload pj]> (payload <$> particles r)));
      [done|].
    assert (Hlen : length (particles r') = length (particles r)).
    { pose proof (SwapParticles_GetEntries _ _ _ _ Hswap) as Hn. unfold GetEntries in Hn. lia. }
    apply list_eq. intros k.
    destruct (SwapParticles_slots r i j r' (Z.of_nat k) Hswap) as [_ Hk].
    apply payload_fmap_but_mother in Hk. rewrite GetParticle_of_nat in Hk.
    rewrite (list_lookup_fmap payload (particles r')), Hk. unfold moved.
    assert (Hli : (Z.to_nat i < length (particles r))%nat) by (by eapply lookup_lt_Some).
    assert (Hlj : (Z.to_nat j < length (particles r))%nat) by (by eapply lookup_lt_Some).
    destruct (Z.eqb_spec (Z.of_nat k) i) as [Hki|Hki].
    + replace k with (Z.to_nat i) by lia.
      rewrite list_lookup_insert_ne by lia.
      rewrite list_lookup_insert_eq by (by rewrite length_fmap).
      destruct (GetParticle r j) as [q|] eqn:Hq.
      * apply GetParticle_Some in Hq as [_ Hq]. simpl. congruence.
      * apply GetParticle_None in Hq. unfold GetEntries in Hq. lia.
    + destruct (Z.eqb_spec (Z.of_nat k) j) as [Hkj|Hkj].
      * replace k with (Z.to_nat j) by lia.
        rewrite list_lookup_insert_eq by (by rewrite length_insert, length_fmap).
        destruct (GetParticle r i) as [q|] eqn:Hq.
        -- apply GetParticle_Some in Hq as [_ Hq]. simpl. congruence.
        -- apply GetParticle_None in Hq. unfold GetEntries in Hq. lia.
      * rewrite !list_lookup_insert_ne by lia.
        by rewrite GetParticle_of_nat, list_lookup_fmap.
Qed.

Lemma update_slot_payload f k r r' :
  (∀ p, payload (f p) = payload p) →
  update_slot f k r = Returns r' →
  payload <$> particles r' = payload <$> particles r.
Proof. intros Hf (p & _ & ->)%update_slot_Returns. by apply fmap_set_slot. Qed.

Lemma scan_loop_payload i ks : ∀ r start ndau r' start' ndau',
  oloop (scan_step i) ks (r, start, ndau) = Returns (r', start', ndau') →
  payload <$> particles r' ≡ₚ payload <$> particles r.
Proof.
  induction ks as [|k ks IH]; intros r start ndau r' start' ndau'; cbn [oloop].
  - by intros [= <- <- <-].
  - intros ([[r1 start1] ndau1] & Hstep & Hloop)%bind_Returns.
    rewrite (IH _ _ _ _ _ _ Hloop). rewrite scan_step_eq in Hstep.
    apply bind_Returns in Hstep as (p & _ & Hstep).
    destruct (FirstMother p =? i).
    + apply bind_Returns in Hstep as (r2 & Hswap & [= <- <- <-]).
      by eapply SwapParticles_payload.
    + by injection Hstep as <- <- <-.
Qed.

Lemma compactify_entry_payload n r start i r' start' :
  compactify_entry n (r, start) i = Returns (r', start') →
  payload <$> particles r' ≡ₚ payload <$> particles r.
Proof.
  rewrite compactify_entry_eq. destruct (negb _); [|by intros [= <- <-]].
  intros ([[r1 start1] ndau] & Hloop%scan_loop_payload & Hset)%bind_Returns.
  rewrite <- Hloop. cbn [fst snd] in Hset.
  destruct (0 <? ndau);
    apply bind_Returns in Hset as (ra & Hra & Hset);
    apply bind_Returns in Hset as (rb & Hrb & [= <- <-]);
    apply update_slot_payload in Hra, Hrb; try done; by rewrite Hrb, Hra.
Qed.

Lemma compactify_loop_payload n idxs : ∀ r start r' start',
  oloop (compactify_entry n) idxs (r, start) = Returns (r', start') →
  payload <$> particles r' ≡ₚ payload <$> particles r.
Proof.
  induction idxs as [|i idxs IH]; intros r start r' start'; cbn [oloop].
  - by intros [= <- <-].
  - intros ([r1 start1] & Hstep%compactify_entry_payload & Hloop)%bind_Returns.
    by rewrite (IH _ _ _ _ Hloop).
Qed.

Lemma FinalizeDaughterLists_payload r :
  payload <$> particles (FinalizeDaughterLists r) = payload <$> particles r.
Proof.
  apply list_eq. intros k. rewrite !list_lookup_fmap, <- !GetParticle_of_nat.
  rewrite GetParticle_Finalize_fmap. by destruct (GetParticle r (Z.of_nat k)).
Qed.

(** X11.  The compactifier only rearranges: whenever
    [CompactifyDaughterLists] returns, the entries of its outcome carry, up
    to their order, the type codes, role tags, second mothers, momenta and
    positions of the entries it was given; no entry is lost, duplicated or
    altered in these fields. *)
Theorem CompactifyDaughterLists_rearranges (r r' : GHepRecord) :
  CompactifyDaughterLists r = Returns r' →
  payload <$> particles r' ≡ₚ payload <$> particles r.
Proof.
  unfold CompactifyDaughterLists, CompactifyPhase1.
  intros (r1 & Hphase & [= <-])%bind_Returns.
  apply bind_Returns in Hphase as ([r2 start2] & Hloop%compactify_loop_payload & [= <-]).
  by rewrite FinalizeDaughterLists_payload.
Qed.

Lemma CompactifyDaughterLists_rearranges_witness :
  CompactifyDaughterLists (before_compaction scenario_B) =
    Returns scenario_B_appended ∧
  payload <$> particles scenario_B_appended ≡ₚ
  payload <$> particles (before_compaction scenario_B).
Proof.
  split; [reflexivity|].
  exact (CompactifyDaughterLists_rearranges (before_compaction scenario_B)
           scenario_B_appended eq_refl).
Defined.

(** ** What an append leaves *)

Lemma frame_set_slot f k r : frame (set_slot f k r) = frame r.
Proof. done. Qed.

Lemma frame_update_slot f k r r' : update_slot f k r = Returns r' → frame r' = frame r.
Proof. by intros (p & _ & ->)%update_slot_Returns. Qed.

Lemma frame_tell_loop m ks : ∀ r r',
  oloop (λ r' k, update_slot (SetFirstMother m) k r') ks r = Returns r' →
  frame r' = frame r.
Proof.
  induction ks as [|k ks IH]; intros r r'; cbn [oloop]; [by intros [= <-]|].
  intros (r1 & Hr1%frame_update_slot & Hloop%IH)%bind_Returns. congruence.
Qed.

Lemma frame_tell_daughters p m r r' :
  tell_daughters p m r = Returns r' → frame r' = frame r.
Proof.
  unfold tell_daughters. destruct (HasDaughters p); [apply frame_tell_loop|by intros [= <-]].
Qed.

Lemma frame_SwapParticles r i j r' : SwapParticles r i j = Returns r' → frame r' = frame r.
Proof.
  intros Hswap. destruct (decide (i = j)) as [->|Hne].
  - revert Hswap. unfold SwapParticles. destruct (negb _); [done|].
    rewrite Z.eqb_refl. by intros [= <-].
  - destruct (SwapParticles_Returns _ _ _ _ Hne Hswap)
      as (pi & pj & r3 & pj' & _ & _ & H1%frame_tell_daughters & _ & H2%frame_tell_daughters).
    by rewrite H2, H1.
Qed.

Lemma frame_scan_loop i ks : ∀ r start ndau r' start' ndau',
  oloop (scan_step i) ks (r, start, ndau) = Returns (r', start', ndau') →
  frame r' = frame r.
Proof.
  induction ks as [|k ks IH]; intros r start ndau r' start' ndau'; cbn [oloop].
  - by intros [= <- <- <-].
  - intros ([[r1 start1] ndau1] & Hstep & Hloop)%bind_Returns.
    rewrite (IH _ _ _ _ _ _ Hloop). rewrite scan_step_eq in Hstep.
    apply bind_Returns in Hstep as (p & _ & Hstep).
    destruct (FirstMother p =? i).
    + apply bind_Returns in Hstep as (r2 & Hswap & [= <- <- <-]).
      by eapply frame_SwapParticles.
    + by injection Hstep as <- <- <-.
Qed.

Lemma frame_compactify_loop n idxs : ∀ r start r' start',
  oloop (compactify_entry n) idxs (r, start) = Returns (r', start') →
  frame r' = frame r.
Proof.
  induction idxs as [|i idxs IH]; intros r start r' start'; cbn [oloop].
  - by intros [= <- <-].
  - intros ([r1 start1] & Hstep & Hloop)%bind_Returns.
    rewrite (IH _ _ _ _ Hloop). rewrite compactify_entry_eq in Hstep.
    destruct (negb _); [|by injection Hstep as <- <-].
    apply bind_Returns in Hstep as ([[r2 start2] ndau] & Hscan%frame_scan_loop & Hset).
    rewrite <- Hscan. cbn [fst snd] in Hset.
    destruct (0 <? ndau);
      apply bind_Returns in Hset as (ra & Hra%frame_update_slot & Hset);
      apply bind_Returns in Hset as (rb & Hrb%frame_update_slot & [= <- <-]);
      congruence.
Qed.

Lemma frame_CompactifyDaughterLists r r' :
  CompactifyDaughterLists r = Returns r' → frame r' = frame r.
Proof.
  unfold CompactifyDaughterLists, CompactifyPhase1.
  intros (r1 & Hphase & [= <-])%bind_Returns.
  apply bind_Returns in Hphase as ([r2 start2] & Hloop%frame_compactify_loop & [= <-]).
  rewrite <- Hloop. unfold frame.
  destruct (FinalizeDaughterLists_idempotent r2) as (_ & -> & -> & -> & ->). done.
Qed.

(** X12.  Whenever [AddParticle] returns, the record has exactly one slot
    more, its summary pointer and flags are untouched, and its entries
    carry, up to their order, the payloads of the old entries and of the
    new one.  On the cheap paths the order is kept as well: every old entry
    stays in its slot and the new entry sits in the last slot. *)
Theorem AddParticle_adds_one_entry (r : GHepRecord) (p : GHepParticle)
    (path : UpdatePath) (r' : GHepRecord) :
  AddParticle r p = Returns (path, r') →
  GetEntries r' = GetEntries r + 1 ∧
  frame r' = frame r ∧
  payload <$> particles r' ≡ₚ (payload <$> particles r) ++ [payload p] ∧
  (path ≠ RanCompactifier →
     payload <$> particles r' = (payload <$> particles r) ++ [payload p]).
Proof.
  intros Hadd.
  assert (Hlist : ∀ l : list GHepParticle, payload <$> l ++ [p] = (payload <$> l) ++ [payload p])
    by (intros l; by rewrite fmap_app).
  assert (H : frame r' = frame r ∧
              payload <$> particles r' ≡ₚ (payload <$> particles r) ++ [payload p] ∧
              (path ≠ RanCompactifier →
                 payload <$> particles r' = (payload <$> particles r) ++ [payload p])).
  { revert Hadd. unfold AddParticle, UpdateDaughterLists.
    set (placed := with_particles r (particles r ++ [p])).
    assert (Hpl : payload <$> particles placed = (payload <$> particles r) ++ [payload p])
      by apply Hlist.
    destruct (GetParticle placed (GetEntries placed - 1)) as [q|]; [|done].
    destruct (FirstMother q =? -1); [by intros [= <- <-]; rewrite Hpl|].
    destruct (GetParticle placed (FirstMother q)) as [mom|]; [|by intros [= <- <-]; rewrite Hpl].
    destruct (FirstDaughter mom =? -1).
    { intros [= <- <-]. by rewrite !fmap_set_slot, Hpl. }
    destruct (_ =? FirstDaughter mom - 1).
    { intros [= <- <-]. by rewrite !fmap_set_slot, Hpl. }
    destruct (_ =? LastDaughter mom + 1).
    { intros [= <- <-]. by rewrite !fmap_set_slot, Hpl. }
    intros (rc & Hc & [= <- <-])%bind_Returns. split_and!; [|by rewrite <- Hpl; apply CompactifyDaughterLists_rearranges|done].
    by rewrite (frame_CompactifyDaughterLists _ _ Hc). }
  split; [|done]. destruct H as (_ & Hperm & _).
  apply Permutation_length in Hperm. rewrite length_app, !length_fmap in Hperm.
  unfold GetEntries. simpl in Hperm. lia.
Qed.

Lemma AddParticle_adds_one_entry_witness :
  AddParticle scenario_B_three (entry 211 kIStStableFinalState 0) =
    Returns (RanCompactifier, scenario_B_appended) ∧
  GetEntries scenario_B_appended = GetEntries scenario_B_three + 1 ∧
  frame scenario_B_appended = frame scenario_B_three ∧
  payload <$> particles scenario_B_appended ≡ₚ
  (payload <$> particles scenario_B_three) ++
    [payload (entry 211 kIStStableFinalState 0)].
Proof.
  split; [reflexivity|].
  destruct (AddParticle_adds_one_entry scenario_B_three
              (entry 211 kIStStableFinalState 0) RanCompactifier
              scenario_B_appended eq_refl) as (Hn & Hf & Hp & _).
  split_and!; done.
Defined.

(** ** Swapping entries without daughters *)

Lemma GetEntries_with_slot r k q : GetEntries (with_slot r k q) = GetEntries r.
Proof. unfold GetEntries, with_slot; simpl. by rewrite length_insert. Qed.

Lemma GetParticle_with_slot r k q j :
  0 ≤ k < GetEntries r →
  GetParticle (with_slot r k q) j = if decide (j = k) then Some q else GetParticle r j.
Proof.
  intros Hk. destruct (GetParticle_is_Some r k) as [_ [p Hp]]; [done|].
  rewrite <- (set_slot_with_slot (λ _, q) k r p Hp).
  destruct (decide (j = k)) as [->|Hne].
  - by apply (GetParticle_set_slot_eq (λ _, q) k r p).
  - apply GetParticle_set_slot_ne; [lia|done].
Qed.

Lemma SwapParticles_daughterless r i j pi pj :
  i ≠ j → GetParticle r i = Some pi → GetParticle r j = Some pj →
  HasDaughters pi = false → HasDaughters pj = false →
  SwapParticles r i j = Returns (with_slot (with_slot r i pj) j pi).
Proof.
  intros Hne Hpi Hpj Hdi Hdj.
  assert (Hi : 0 ≤ i < GetEntries r) by (apply GetParticle_is_Some; eauto).
  assert (Hj : 0 ≤ j < GetEntries r) by (apply GetParticle_is_Some; eauto).
  unfold SwapParticles.
  destruct (Z.leb_spec 0 i); [|lia]. destruct (Z.leb_spec 0 j); [|lia].
  destruct (Z.ltb_spec i (GetEntries r)); [|lia].
  destruct (Z.ltb_spec j (GetEntries r)); [|lia]. cbn [andb negb].
  destruct (Z.eqb_spec i j) as [?|_]; [done|].
  rewrite Hpi, Hpj. cbn [deref mbind outcome_bind].
  rewrite (GetParticle_exchanged r i j pi pj i Hne Hpi Hpj). unfold moved at 1.
  rewrite Z.eqb_refl, Hpj. cbn [deref mbind outcome_bind].
  unfold tell_daughters at 2. rewrite Hdj. cbn [mbind outcome_bind].
  rewrite (GetParticle_exchanged r i j pi pj j Hne Hpi Hpj). unfold moved.
  destruct (Z.eqb_spec j i) as [?|_]; [lia|]. rewrite Z.eqb_refl, Hpi.
  cbn [deref mbind outcome_bind]. unfold tell_daughters. rewrite Hdi. f_equal.
  rewrite (set_slot_with_slot _ i r pi Hpi). unfold GHepParticle_Copy at 2.
  erewrite set_slot_with_slot; [done|].
  rewrite GetParticle_with_slot by done. by rewrite decide_False, Hpj by lia.
Qed.

(** X13.  [SwapParticles] on two entries without daughters exchanges the
    full contents of the two slots and changes nothing else, and swapping
    the same slots again restores the record.  With an index outside the
    record it fails its assertion; with [i = j] inside the record it
    returns the record as it is. *)
Theorem SwapParticles_involution :
  (∀ r i j pi pj,
     i ≠ j → GetParticle r i = Some pi → GetParticle r j = Some pj →
     HasDaughters pi = false → HasDaughters pj = false →
     ∃ r', SwapParticles r i j = Returns r' ∧
       GetParticle r' i = Some pj ∧ GetParticle r' j = Some pi ∧
       (∀ k, k ≠ i → k ≠ j → GetParticle r' k = GetParticle r k) ∧
       frame r' = frame r ∧
       SwapParticles r' i j = Returns r) ∧
  (∀ r i j, ¬ (0 ≤ i < GetEntries r ∧ 0 ≤ j < GetEntries r) →
     SwapParticles r i j = Aborts) ∧
  (∀ r i, 0 ≤ i < GetEntries r → SwapParticles r i i = Returns r).
Proof.
  split_and!.
  - intros r i j pi pj Hne Hpi Hpj Hdi Hdj.
    assert (Hi : 0 ≤ i < GetEntries r) by (apply GetParticle_is_Some; eauto).
    assert (Hj : 0 ≤ j < GetEntries r) by (apply GetParticle_is_Some; eauto).
    set (r' := with_slot (with_slot r i pj) j pi).
    assert (Hn1 : GetEntries (with_slot r i pj) = GetEntries r)
      by apply GetEntries_with_slot.
    assert (Hget : ∀ k, GetParticle r' k =
              if decide (k = j) then Some pi
              else if decide (k = i) then Some pj else GetParticle r k).
    { intros k. unfold r'. rewrite GetParticle_with_slot by lia.
      destruct (decide (k = j)); [done|]. by rewrite GetParticle_with_slot. }
    exists r'. split_and!.
    + by apply SwapParticles_daughterless.
    + rewrite Hget. by rewrite decide_False, decide_True by done.
    + rewrite Hget. by rewrite decide_True.
    + intros k Hki Hkj. rewrite Hget. by rewrite !decide_False.
    + done.
    + rewrite (SwapParticles_daughterless r' i j pj pi); [f_equal|done| | |done|done].
      * apply record_ext; try done. intros k.
        assert (GetEntries r' = GetEntries r) as Hn'
          by (unfold r'; by rewrite !GetEntries_with_slot).
        rewrite GetParticle_with_slot by (rewrite GetEntries_with_slot; lia).
        destruct (decide (k = j)) as [->|Hkj]; [done|].
        rewrite GetParticle_with_slot by lia.
        destruct (decide (k = i)) as [->|Hki]; [done|].
        rewrite Hget. by rewrite !decide_False.
      * rewrite Hget. by rewrite decide_False, decide_True by done.
      * rewrite Hget. by rewrite decide_True.
  - intros r i j Hout. unfold SwapParticles.
    destruct (Z.leb_spec 0 i); destruct (Z.leb_spec 0 j);
      destruct (Z.ltb_spec i (GetEntries r)); destruct (Z.ltb_spec j (GetEntries r));
      cbn [andb negb]; try done. lia.
  - intros r i Hi. unfold SwapParticles.
    destruct (Z.leb_spec 0 i); [|lia]. destruct (Z.ltb_spec i (GetEntries r)); [|lia].
    cbn [andb negb]. by rewrite Z.eqb_refl.
Qed.

(** ** Shifting the vertex *)

Lemma GetParticle_fmap (f : GHepParticle → GHepParticle) r k :
  GetParticle (with_particles r (f <$> particles r)) k = f <$> GetParticle r k.
Proof.
  apply option_eq. intros q. rewrite GetParticle_Some. simpl.
  rewrite list_lookup_fmap. destruct (GetParticle r k) as [p|] eqn:Hp.
  - apply GetParticle_Some in Hp as [Hk Hp]. rewrite Hp. simpl. split; [by intros [_ ?]|done].
  - split; [|done]. intros [Hk Hq]. apply fmap_Some in Hq as (p & Hp' & _).
    assert (GetParticle r k = Some p) by (by apply GetParticle_Some). congruence.
Qed.

Lemma first_match_fmap (f : GHepParticle → GHepParticle) ps test idxs :
  (∀ p, test (f p) = test p) →
  first_match (f <$> ps) test idxs =
  (m ← first_match ps test idxs;
   Returns (match m with Some (i, p) => Some (i, f p) | None => None end)).
Proof.
  intros Hf. induction idxs as [|i idxs IH]; cbn [first_match]; [done|].
  assert (at_slot (f <$> ps) i = f <$> at_slot ps i) as ->.
  { unfold at_slot. rewrite length_fmap. destruct (_ && _); [|done].
    by rewrite list_lookup_fmap. }
  destruct (at_slot ps i) as [p|]; [|done]. cbn [fmap option_fmap option_map deref mbind outcome_bind].
  rewrite Hf. destruct (test p); [done|]. exact IH.
Qed.

(** X14.  [ShiftVertex] touches nothing but the 4-positions: it keeps the
    number of entries, the summary pointer and the flags, every entry keeps
    its type code, role tag, mother and daughter indices and momentum, and
    its position becomes the componentwise sum of the shift and the old
    position.  So the compactness check answers as before on every
    position, exact daughter ranges stay exact, and a lookup by type code
    and role finds the same position. *)
Theorem ShiftVertex_positions_only (vec4 : TLorentzVector) (r : GHepRecord) :
  GetEntries (ShiftVertex vec4 r) = GetEntries r ∧
  frame (ShiftVertex vec4 r) = frame r ∧
  (∀ i, GetParticle (ShiftVertex vec4 r) i = shifted vec4 <$> GetParticle r i) ∧
  (∀ p, PdgCode (shifted vec4 p) = PdgCode p ∧ Status (shifted vec4 p) = Status p ∧
        FirstMother (shifted vec4 p) = FirstMother p ∧
        LastMother (shifted vec4 p) = LastMother p ∧
        FirstDaughter (shifted vec4 p) = FirstDaughter p ∧
        LastDaughter (shifted vec4 p) = LastDaughter p ∧
        P4 (shifted vec4 p) = P4 p ∧
        X4 (shifted vec4 p) =
          mkTLorentzVector (fX vec4 + fX (X4 p)) (fY vec4 + fY (X4 p))
                           (fZ vec4 + fZ (X4 p)) (fT vec4 + fT (X4 p))) ∧
  (∀ m, HasCompactDaughterList (ShiftVertex vec4 r) m = HasCompactDaughterList r m) ∧
  (daughter_ranges_exact r → daughter_ranges_exact (ShiftVertex vec4 r)) ∧
  (∀ pdg status start,
     ParticlePosition (ShiftVertex vec4 r) pdg status start =
     ParticlePosition r pdg status start).
Proof.
  assert (Hshift : ShiftVertex vec4 r = with_particles r (shifted vec4 <$> particles r))
    by done.
  assert (Hget : ∀ i, GetParticle (ShiftVertex vec4 r) i = shifted vec4 <$> GetParticle r i).
  { intros i. rewrite Hshift. apply GetParticle_fmap. }
  assert (Hmothers : FirstMother <$> particles (ShiftVertex vec4 r)
                     = FirstMother <$> particles r).
  { rewrite Hshift. apply list_eq. intros j. cbn [particles with_particles].
    rewrite !list_lookup_fmap. by destruct (particles r !! j). }
  assert (Hn : GetEntries (ShiftVertex vec4 r) = GetEntries r).
  { rewrite Hshift. unfold GetEntries; simpl. by rewrite length_fmap. }
  split_and!; [done|done|done|done| | |].
  - intros m. by apply HasCompactDaughterList_mothers.
  - intros Hex i p' Hp' Hd k. rewrite Hget in Hp'.
    destruct (GetParticle r i) as [p|] eqn:Hp; [|done]. injection Hp' as <-.
    simpl in Hd |- *. rewrite <- (Hex i p Hp Hd k).
    split; apply is_daughter_of_mothers; by rewrite Hmothers.
  - intros pdg status start. unfold ParticlePosition, positions_from.
    rewrite Hn, Hshift. simpl. rewrite first_match_fmap by done.
    by destruct (first_match _ _ _) as [[[i p]|]|].
Qed.

(** ** Resetting and the ownership of the summary *)

Section ResetProperties.
Context {Interaction : Type}.
Implicit Types (h : gmap addr Interaction) (this record : GHepRecord).

(** X15.  [ResetGHepRecord] fails only on a record whose summary pointer
    does not point to a live object.  When it returns, the record has no
    entry, no summary and no flag set, the heap has lost the object the
    summary pointer named and nothing else, and resetting once more
    returns the same record and heap. *)
Theorem ResetGHepRecord_clears this h :
  (ResetGHepRecord this h = Aborts ↔
   ∃ b, fInteraction this = Some b ∧ h !! b = None) ∧
  (∀ r' h', ResetGHepRecord this h = Returns (r', h') →
     GetEntries r' = 0 ∧ GetInteraction r' = None ∧ IsUnphysical r' = false ∧
     (∀ b, fInteraction this = Some b → h' !! b = None) ∧
     (∀ c, fInteraction this ≠ Some c → h' !! c = h !! c) ∧
     ResetGHepRecord r' h' = Returns (r', h')).
Proof.
  unfold ResetGHepRecord, CleanUpGHepRecord, delete_Interaction.
  destruct (fInteraction this) as [b|] eqn:Hb.
  - destruct (h !! b) as [i|] eqn:Hi; cbn [mbind outcome_bind]; split.
    + split; [done|]. intros (b' & [= <-] & ?). congruence.
    + intros r' h' [= <- <-]. split_and!; try done.
      * intros b' [= <-]. apply lookup_delete_eq.
      * intros c Hc. apply lookup_delete_ne. congruence.
    + split; [eauto|done].
    + done.
  - cbn [mbind outcome_bind]. split.
    + split; [done|]. by intros (b & ? & _).
    + intros r' h' [= <- <-]. split_and!; done.
Qed.

(** X16.  After [Copy] the two records own their summaries separately:
    resetting the copy leaves the summary of the source alive, and
    resetting the source leaves the summary of the copy alive.  [Copy]
    itself aborts when the destination is attached to the very summary
    object of the source, which it has deleted by the time it clones it. *)
Theorem Copy_owns_its_summary this record h a i :
  fInteraction record = Some a →
  h !! a = Some i →
  (∀ b, fInteraction this = Some b → b ≠ a ∧ is_Some (h !! b)) →
  ∃ this' h' a',
    Copy this record h = Returns (this', h') ∧
    fInteraction this' = Some a' ∧
    (∃ r1 h1, ResetGHepRecord this' h' = Returns (r1, h1) ∧
              h1 !! a = Some i ∧ h1 !! a' = None) ∧
    (∃ r2 h2, ResetGHepRecord record h' = Returns (r2, h2) ∧
              h2 !! a' = Some i ∧ h2 !! a = None) ∧
    Copy (AttachInteraction this (Some a)) record h = Aborts.
Proof.
  intros Ha Hi Hthis.
  set (h1 := heap_after_reset this h).
  assert (Hi1 : h1 !! a = Some i).
  { unfold h1, heap_after_reset. destruct (fInteraction this) as [b|] eqn:Hb; [|done].
    destruct (Hthis b eq_refl) as [Hne _]. by rewrite lookup_delete_ne. }
  assert (Hfresh : h1 !! fresh (dom h1) = None) by apply not_elem_of_dom, is_fresh.
  assert (Hne : fresh (dom h1) ≠ a) by congruence.
  eexists _, _, (fresh (dom h1)). split_and!.
  - apply (Copy_Returns _ _ _ a); [|done..]. intros b Hb. by destruct (Hthis b Hb).
  - done.
  - eexists _, _. split; [|split].
    + apply ResetGHepRecord_Returns. intros b [= <-]. rewrite lookup_insert_eq. eauto.
    + unfold heap_after_reset. cbn [fInteraction].
      by rewrite lookup_delete_ne, lookup_insert_ne.
    + unfold heap_after_reset. cbn [fInteraction]. apply lookup_delete_eq.
  - eexists _, _. split; [|split].
    + apply ResetGHepRecord_Returns. intros b Hb. rewrite Ha in Hb. injection Hb as <-.
      rewrite lookup_insert_ne by done. eauto.
    + unfold heap_after_reset. rewrite Ha.
      by rewrite lookup_delete_ne, lookup_insert_eq.
    + unfold heap_after_reset. rewrite Ha. apply lookup_delete_eq.
  - unfold Copy. rewrite ResetGHepRecord_Returns.
    2:{ intros b [= <-]. eauto. }
    cbn [mbind outcome_bind]. rewrite Ha. cbn [deref mbind outcome_bind].
    unfold heap_after_reset. cbn [AttachInteraction fInteraction].
    by rewrite lookup_delete_eq.
Qed.
End ResetProperties.

Lemma Copy_owns_its_summary_witness :
  fInteraction scenario_A_with_summary = Some 1%positive ∧
  one_summary !! 1%positive = Some 42 ∧
  (∀ b, fInteraction empty_record = Some b →
        b ≠ 1%positive ∧ is_Some (one_summary !! b)) ∧
  ∃ this' h' a',
    Copy empty_record scenario_A_with_summary one_summary = Returns (this', h') ∧
    fInteraction this' = Some a' ∧
    (∃ r1 h1, ResetGHepRecord this' h' = Returns (r1, h1) ∧
              h1 !! 1%positive = Some 42 ∧ h1 !! a' = None) ∧
    (∃ r2 h2, ResetGHepRecord scenario_A_with_summary h' = Returns (r2, h2) ∧
              h2 !! a' = Some 42 ∧ h2 !! 1%positive = None) ∧
    Copy (AttachInteraction empty_record (Some 1%positive))
         scenario_A_with_summary one_summary = Aborts.
Proof.
  assert (∀ b, fInteraction empty_record = Some b →
               b ≠ 1%positive ∧ is_Some (one_summary !! b)) as Hthis
    by (intros b Hb; discriminate Hb).
  split; [reflexivity|]. split; [apply lookup_singleton_eq|]. split; [exact Hthis|].
  exact (Copy_owns_its_summary empty_record scenario_A_with_summary one_summary
           1%positive 42 eq_refl (lookup_singleton_eq _ _) Hthis).
Defined.

(** ** The messenger: priority levels from text *)

Lemma prefix_spec s p : String.prefix s p = true ↔ ∃ b, p = s +:+ b.
Proof.
  revert p. induction s as [|c s IH]; intros p.
  - split; [intros _; by exists p|intros _; by destruct p].
  - destruct p as [|d p]; simpl.
    + split; [done|]. by intros (b & ?).
    + destruct (Ascii.ascii_dec c d) as [->|Hne].
      * rewrite IH. split; intros (b & Hb); exists b; [by rewrite Hb|].
        by injection Hb.
      * split; [done|]. intros (b & Hb). by injection Hb.
Qed.

Lemma found_spec s p : found s p = true ↔ occurs_in s p.
Proof.
  unfold found, occurs_in. induction p as [|d p IH]; cbn [string_find].
  - destruct (String.prefix s "") eqn:Hpre.
    + split; [intros _|done]. apply prefix_spec in Hpre as (b & Hb). by exists "", b.
    + split; [done|]. intros (a & b & Hab). destruct a; [|done].
      assert (String.prefix s "" = true) by (apply prefix_spec; by exists b). congruence.
  - destruct (String.prefix s (String d p)) eqn:Hpre.
    + split; [intros _|done]. apply prefix_spec in Hpre as (b & Hb). by exists "", b.
    + destruct (string_find s p) as [n|]; simpl.
      * split; [intros _|done]. destruct (proj1 IH eq_refl) as (a & b & ->).
        by exists (String d a), b.
      * split; [done|]. intros (a & b & Hab). destruct a as [|e a].
        -- assert (String.prefix s (String d p) = true)
             by (apply prefix_spec; by exists b). congruence.
        -- injection Hab as -> ->. assert (false = true) as ?; [|done]. apply IH. eauto.
Qed.

(** X17.  [PriorityFromString] returns the level whose keyword comes first
    in the order FATAL, ALERT, CRIT, ERROR, WARN, NOTICE, INFO, DEBUG among
    the keywords that occur somewhere in the text, and INFO when none
    occurs. *)
Theorem PriorityFromString_first_keyword (p : string) :
  (∀ pr, occurs_in (keyword pr) p →
     occurs_in (keyword (PriorityFromString p)) p ∧
     (test_order (PriorityFromString p) ≤ test_order pr)%nat) ∧
  ((∀ pr, ¬ occurs_in (keyword pr) p) → PriorityFromString p = INFO).
Proof.
  assert (Hf : ∀ pr, found (keyword pr) p = true ↔ occurs_in (keyword pr) p)
    by (intros pr; apply found_spec).
  pose proof (Hf FATAL) as H0; pose proof (Hf ALERT) as H1;
    pose proof (Hf CRIT) as H2; pose proof (Hf ERROR) as H3;
    pose proof (Hf WARN) as H4; pose proof (Hf NOTICE) as H5;
    pose proof (Hf INFO) as H6; pose proof (Hf DEBUG) as H7.
  clear Hf. unfold PriorityFromString. cbn [keyword] in *. split.
  - intros pr Hpr.
    assert (Hpr' : found (keyword pr) p = true) by (by apply found_spec).
    repeat match goal with
           | |- context [if found ?s p then _ else _] =>
               destruct (found s p) eqn:?
           end;
      (split; [cbn [keyword]; first [by apply H0 | by apply H1 | by apply H2
                 | by apply H3 | by apply H4 | by apply H5 | by apply H6
                 | by apply H7 | idtac]
              | destruct pr; cbn [keyword test_order] in *; first [lia | congruence]]).
    all: destruct pr; cbn [keyword] in Hpr'; congruence.
  - intros Hno.
    repeat match goal with
           | |- context [if found ?s p then _ else _] =>
               destruct (found s p) eqn:?
           end; try done; exfalso.
    + by apply (Hno FATAL), H0.
    + by apply (Hno ALERT), H1.
    + by apply (Hno CRIT), H2.
    + by apply (Hno ERROR), H3.
    + by apply (Hno WARN), H4.
    + by apply (Hno NOTICE), H5.
    + by apply (Hno DEBUG), H7.
Qed.

(** X18.  The eight keywords do not overlap: [PriorityFromString] maps the
    keyword of every level back to that level. *)
Theorem PriorityFromString_keyword (pr : Priority) :
  PriorityFromString (keyword pr) = pr.
Proof. by destruct pr. Qed.
